(** * torchrl fragment: the MCTS tree node and the Online Decision
      Transformer pretraining loop

    Sources embedded here:
    - [torchrl/modules/planners/mcts.py]: class [_MCTSNode];
    - [examples/decision_transformer/online_dt.py]: function [main].

    Conventions of the embedding.
    - Python exceptions are values of [exn]; a computation that may raise
      returns a [result].
    - Python objects live in a heap ([list] of nodes used as an arena, an
      address is a position): a child holds the address of its parent, so
      two children of one parent see the same arrays.
    - A [torch.long] cell is a [Z] inside the signed 64-bit range, and
      integer tensor arithmetic wraps around.
    - A [float32] cell is an [fval]: a rational, an infinity or a NaN.
      What is stored or computed in [float32] is rounded to the nearest
      [float32] number, ties to even ([round_f32]); the two zeros are not
      told apart.  A tensor division by zero yields an infinity or a NaN.
    - [torch.zeros] takes a 64-bit size and asks the allocator for the
      memory of the cells; which requests the allocator serves is a
      parameter, [can_allocate].
    - The Python floats of the training loop are rationals, and a Python
      float division by zero raises.
    - The mapping that the loss module returns lists its entries in an
      order of its own; it has the three names that [main] reads. *)

From Stdlib Require Import ZArith QArith Qabs Qminmax Qreduction Lia.
From stdpp Require Import base option list gmap strings.

Local Open Scope Z_scope.

(** ** Python exceptions and the error monad *)

Module Py.

Inductive exn : Type :=
| AttributeError (msg : string)
| IndexError (index : Z) (size : nat)
| NameError (name : string)
| RuntimeError (msg : string)
| ZeroDivisionError
| UnboundLocalError (name : string).

Inductive result (A : Type) : Type :=
| Ok (a : A)
| Raise (e : exn).

Arguments Ok {A} a.
Arguments Raise {A} e.

#[export] Instance result_ret : MRet result := fun A a => Ok a.

#[export] Instance result_bind : MBind result := fun A B k m =>
  match m with
  | Ok a => k a
  | Raise e => Raise e
  end.

Definition raises {A : Type} (m : result A) : Prop :=
  match m with
  | Ok _ => False
  | Raise _ => True
  end.

End Py.

Export Py.

(** ** Tensors of rank one *)

Module Tensor.

Definition int64_min : Z := - 2 ^ 63.
Definition int64_max : Z := 2 ^ 63 - 1.

Definition fits_int64 (z : Z) : bool :=
  (int64_min <=? z) && (z <=? int64_max).

(** Two's complement wrap-around of integer tensor arithmetic. *)
Definition wrap_int64 (z : Z) : Z :=
  (z + 2 ^ 63) `mod` 2 ^ 64 - 2 ^ 63.

(** [torch.zeros([n])] for cells of [cell_bytes] bytes: the size is
    unpacked to a machine integer, a negative size is refused, and the
    memory of the cells has to be found; [can_allocate] tells for a number
    of bytes whether the allocator serves the request. *)
Definition zeros {A : Type} (can_allocate : Z → bool) (cell_bytes : Z)
    (zero : A) (n : Z) : result (list A) :=
  if negb (fits_int64 n)
  then Raise (RuntimeError "Overflow when unpacking long")
  else if n <? 0
  then Raise (RuntimeError "Trying to create tensor with negative dimension")
  else if (0 <? n) && negb (can_allocate (cell_bytes * n))
  then Raise (RuntimeError "DefaultCPUAllocator: can't allocate memory")
  else Ok (replicate (Z.to_nat n) zero).

(** A Python integer used as an index is first unpacked to a machine
    integer, then wrapped once when negative, then range-checked. *)
Definition normalize_index (size : nat) (i : Z) : result nat :=
  if negb (fits_int64 i)
  then Raise (RuntimeError "Overflow when unpacking long")
  else if (0 <=? i) && (i <? Z.of_nat size)
  then Ok (Z.to_nat i)
  else if (- Z.of_nat size <=? i) && (i <? 0)
  then Ok (Z.to_nat (Z.of_nat size + i))
  else Raise (IndexError i size).

(** [t[i]] *)
Definition getitem {A : Type} (t : list A) (i : Z) : result A :=
  k ← normalize_index (length t) i;
  match t !! k with
  | Some x => Ok x
  | None => Raise (IndexError i (length t))
  end.

(** [t[i] = x] *)
Definition setitem {A : Type} (t : list A) (i : Z) (x : A) : result (list A) :=
  k ← normalize_index (length t) i;
  Ok (<[k := x]> t).

(** [t[i] = x] on a [torch.long] tensor: the value is converted to the
    tensor's type before the index is looked at. *)
Definition setitem_long (t : list Z) (i : Z) (x : Z) : result (list Z) :=
  if fits_int64 x
  then setitem t i x
  else Raise (RuntimeError "Overflow when unpacking long").

(** *** Single-precision numbers *)

(** A floating-point value. *)
Inductive fval : Type :=
| Finite (q : Q)
| PosInf
| NegInf
| NaN.

(** The largest [float32] number, [(2^24 - 1) * 2^104]. *)
Definition f32_max : Q := inject_Z ((2 ^ 24 - 1) * 2 ^ 104).

(** [floor (log2 (n / d))] for [n > 0]. *)
Definition floor_log2 (n : Z) (d : positive) : Z :=
  let e := Z.log2 n - Z.log2 (Zpos d) in
  if (if 0 <=? e then Zpos d * 2 ^ e <=? n else Zpos d <=? n * 2 ^ (- e))
  then e else e - 1.

(** [n / d] rounded to the nearest integer, ties to the even one. *)
Definition round_half_even (n d : Z) : Z :=
  let q := n / d in
  match 2 * (n `mod` d) ?= d with
  | Lt => q
  | Gt => q + 1
  | Eq => if Z.even q then q else q + 1
  end.

(** The magnitude [n / d > 0] rounded to 24 significant bits, as a pair
    [(m, s)] that stands for [m * 2^s]; below [2^-126] the spacing stays
    [2^-149] (subnormal numbers). *)
Definition round_magnitude (n : Z) (d : positive) : Z * Z :=
  let s := Z.max (floor_log2 n d) (-126) - 23 in
  (if 0 <=? s
   then round_half_even n (Zpos d * 2 ^ s)
   else round_half_even (n * 2 ^ (- s)) (Zpos d),
   s).

(** [m * 2^s] as a fraction in lowest terms. *)
Definition scale2 (m s : Z) : Q :=
  if 0 <=? s then inject_Z (m * 2 ^ s) else Qred (m # Z.to_pos (2 ^ (- s))).

(** Rounding to [float32]: to the nearest number, ties to even, to an
    infinity from [2^128 - 2^103] on. *)
Definition round_f32 (q : Q) : fval :=
  match Qnum q with
  | 0 => Finite 0
  | Zpos n =>
      let ms := round_magnitude (Zpos n) (Qden q) in
      if (0 <=? ms.2) && (2 ^ 128 <=? ms.1 * 2 ^ ms.2) then PosInf
      else Finite (scale2 ms.1 ms.2)
  | Zneg n =>
      let ms := round_magnitude (Zpos n) (Qden q) in
      if (0 <=? ms.2) && (2 ^ 128 <=? ms.1 * 2 ^ ms.2) then NegInf
      else Finite (- scale2 ms.1 ms.2)
  end.

(** The cast of a [torch.long] cell to [float32]. *)
Definition f32_of_int (z : Z) : fval := round_f32 (inject_Z z).

(** [a / b] in [float32]. *)
Definition f32_div (a b : fval) : fval :=
  match a, b with
  | NaN, _ => NaN
  | _, NaN => NaN
  | Finite x, Finite y =>
      if Qnum y =? 0
      then match Qnum x ?= 0 with
           | Eq => NaN
           | Gt => PosInf
           | Lt => NegInf
           end
      else round_f32 (x / y)
  | Finite _, _ => Finite 0
  | PosInf, Finite y => if Qnum y <? 0 then NegInf else PosInf
  | NegInf, Finite y => if Qnum y <? 0 then PosInf else NegInf
  | _, _ => NaN
  end.

(** [a / b] for a [float32] cell [a] and a [torch.long] cell [b]: the
    integer is cast to [float32] and the division is done there. *)
Definition true_divide (a : fval) (b : Z) : fval :=
  f32_div a (f32_of_int b).

(** What Python code assigns to a cell of a float tensor: a Python
    [float] (a double; every rational stands for one here), or a
    [float32] tensor of rank 0 such as a getter returns. *)
Inductive pyvalue : Type :=
| PyFloat (x : fval)
| PyTensor (x : fval).

(** The conversion of an assigned value to [float32]: a finite Python
    float beyond the largest [float32] number is refused, any other is
    rounded; a tensor cell is copied. *)
Definition to_float32 (value : pyvalue) : result fval :=
  match value with
  | PyTensor x => Ok x
  | PyFloat (Finite q) =>
      if Qle_bool (Qabs q) f32_max
      then Ok (round_f32 q)
      else Raise (RuntimeError
                    "value cannot be converted to type float without overflow")
  | PyFloat x => Ok x
  end.

(** [t[i] = value] on a [float32] tensor: the value is converted to the
    tensor's type before the index is looked at. *)
Definition setitem_float (t : list fval) (i : Z) (value : pyvalue)
    : result (list fval) :=
  x ← to_float32 value;
  setitem t i x.

End Tensor.

Export Tensor.

(** ** The search tree node ([torchrl/modules/planners/mcts.py]) *)

Module MCTS.

Definition addr : Type := nat.

Section Node.

Context {TensorDict EnvBase : Type}.

(** Whether the allocator serves a request of so many bytes. *)
Variable can_allocate : Z → bool.

(** The attributes that [__init__] binds on the instance. *)
Record _MCTSNode : Type := mk_MCTSNode {
  state : TensorDict;
  n_actions : Z;
  env : EnvBase;
  parent : option addr;
  children : gmap Z addr;
  prev_action : Z;
  _is_expanded : bool;
  _n_vlosses : Z;
  _child_visit_count : list Z;
  _child_total_value : list fval;
  _original_prior : list fval;
  _child_prior : list fval
}.

(** The heap: the node objects allocated so far, by address. *)
Abbreviation heap := (list _MCTSNode).

Definition with_child_visit_count (nd : _MCTSNode) (t : list Z) : _MCTSNode :=
  {| state := state nd; n_actions := n_actions nd; env := env nd;
     parent := parent nd; children := children nd;
     prev_action := prev_action nd; _is_expanded := _is_expanded nd;
     _n_vlosses := _n_vlosses nd; _child_visit_count := t;
     _child_total_value := _child_total_value nd;
     _original_prior := _original_prior nd;
     _child_prior := _child_prior nd |}.

Definition with_child_total_value (nd : _MCTSNode) (t : list fval) : _MCTSNode :=
  {| state := state nd; n_actions := n_actions nd; env := env nd;
     parent := parent nd; children := children nd;
     prev_action := prev_action nd; _is_expanded := _is_expanded nd;
     _n_vlosses := _n_vlosses nd;
     _child_visit_count := _child_visit_count nd;
     _child_total_value := t;
     _original_prior := _original_prior nd;
     _child_prior := _child_prior nd |}.

(** Following a reference.  Python references never dangle; the error
    case only makes the function total on arbitrary heaps. *)
Definition deref (h : heap) (a : addr) : result _MCTSNode :=
  match h !! a with
  | Some nd => Ok nd
  | None => Raise (RuntimeError "dangling reference")
  end.

(** [_MCTSNode.__init__]: the new object is placed at the end of the
    heap and its address is returned.  [c_PUCT] is accepted and dropped.
    A [torch.long] cell takes 8 bytes, a [float32] cell 4. *)
Definition __init__ (h : heap) (state : TensorDict) (n_actions : Z)
    (env : EnvBase) (parent : option addr) (prev_action : Z) (c_PUCT : Q)
    : result (addr * heap) :=
  visit ← zeros can_allocate 8 0 n_actions;
  total ← zeros can_allocate 4 (Finite 0) n_actions;
  original ← zeros can_allocate 4 (Finite 0) n_actions;
  prior ← zeros can_allocate 4 (Finite 0) n_actions;
  Ok (length h,
      h ++ [ {| state := state; n_actions := n_actions; env := env;
                parent := parent; children := ∅;
                prev_action := prev_action;
                _is_expanded := false; _n_vlosses := 0;
                _child_visit_count := visit;
                _child_total_value := total;
                _original_prior := original;
                _child_prior := prior |} ]).

Definition NoneType_has_no (attr : string) : exn :=
  AttributeError ("'NoneType' object has no attribute '" +:+ attr +:+ "'").

(** [self.parent._child_visit_count], [self.parent._child_total_value]. *)
Definition parent_node (h : heap) (nd : _MCTSNode) (attr : string)
    : result (addr * _MCTSNode) :=
  match parent nd with
  | None => Raise (NoneType_has_no attr)
  | Some p => pn ← deref h p; Ok (p, pn)
  end.

(** The getter of the [visit_count] property. *)
Definition visit_count (h : heap) (self : addr) : result Z :=
  nd ← deref h self;
  ppn ← parent_node h nd "_child_visit_count";
  getitem (_child_visit_count ppn.2) (prev_action nd).

(** The setter of the [visit_count] property. *)
Definition set_visit_count (h : heap) (self : addr) (value : Z) : result heap :=
  nd ← deref h self;
  ppn ← parent_node h nd "_child_visit_count";
  t ← setitem_long (_child_visit_count ppn.2) (prev_action nd) value;
  Ok (<[ppn.1 := with_child_visit_count ppn.2 t]> h).

(** The getter of the [total_value] property. *)
Definition total_value (h : heap) (self : addr) : result fval :=
  nd ← deref h self;
  ppn ← parent_node h nd "_child_total_value";
  getitem (_child_total_value ppn.2) (prev_action nd).

(** The setter of the [total_value] property. *)
Definition set_total_value (h : heap) (self : addr) (value : pyvalue)
    : result heap :=
  nd ← deref h self;
  ppn ← parent_node h nd "_child_total_value";
  t ← setitem_float (_child_total_value ppn.2) (prev_action nd) value;
  Ok (<[ppn.1 := with_child_total_value ppn.2 t]> h).

(** The [action_value] property: [self.total_value / (1 + self.visit_count)],
    the sum taken in [torch.long], the quotient in [float32]. *)
Definition action_value (h : heap) (self : addr) : result fval :=
  v ← total_value h self;
  n ← visit_count h self;
  Ok (true_divide v (wrap_int64 (1 + n))).

(** *** Vocabulary for the frame properties *)

(** The sizes for which the four arrays of a node can be made: a
    non-negative 64-bit integer, and memory for the cells. *)
Definition constructible (n : Z) : Prop :=
  0 ≤ n ≤ int64_max ∧
  (0 < n → can_allocate (8 * n) = true ∧ can_allocate (4 * n) = true).

(** Arrays that agree on their size and on every cell but [k]. *)
Definition same_but_cell {A : Type} (k : nat) (t t' : list A) : Prop :=
  length t' = length t ∧ ∀ j, j ≠ k → t' !! j = t !! j.

(** Nodes that agree on every attribute but [_child_visit_count]. *)
Definition same_but_visit_counts (a b : _MCTSNode) : Prop :=
  state a = state b ∧ n_actions a = n_actions b ∧ env a = env b ∧
  parent a = parent b ∧ children a = children b ∧
  prev_action a = prev_action b ∧ _is_expanded a = _is_expanded b ∧
  _n_vlosses a = _n_vlosses b ∧
  _child_total_value a = _child_total_value b ∧
  _original_prior a = _original_prior b ∧ _child_prior a = _child_prior b.

(** Nodes that agree on every attribute but [_child_total_value]. *)
Definition same_but_total_values (a b : _MCTSNode) : Prop :=
  state a = state b ∧ n_actions a = n_actions b ∧ env a = env b ∧
  parent a = parent b ∧ children a = children b ∧
  prev_action a = prev_action b ∧ _is_expanded a = _is_expanded b ∧
  _n_vlosses a = _n_vlosses b ∧
  _child_visit_count a = _child_visit_count b ∧
  _original_prior a = _original_prior b ∧ _child_prior a = _child_prior b.

(** Heaps that hold the same objects everywhere but at address [p]. *)
Definition same_but_node (p : addr) (h h' : heap) : Prop :=
  length h' = length h ∧ ∀ q, q ≠ p → h' !! q = h !! q.

(** From [h] to [h'], cell [k] of the array [field] of node [p] received
    [x]; no other cell of that array, no other attribute of [p] (as told
    by [others]) and no other node changed. *)
Definition wrote_one_cell {A : Type} (field : _MCTSNode → list A)
    (others : _MCTSNode → _MCTSNode → Prop)
    (h h' : heap) (p : addr) (k : nat) (x : A) : Prop :=
  same_but_node p h h' ∧
  ∃ pn pn', h !! p = Some pn ∧ h' !! p = Some pn' ∧
    others pn pn' ∧
    (k < length (field pn))%nat ∧
    same_but_cell k (field pn) (field pn') ∧
    field pn' !! k = Some x.

(** The cell that the Python index [i] denotes in an array of [size]
    cells: [i] itself, or [size + i] for a negative [i]. *)
Definition denotes (size : nat) (i : Z) (k : nat) : Prop :=
  (k < size)%nat ∧
  ((0 ≤ i ∧ Z.of_nat k = i) ∨ (i < 0 ∧ Z.of_nat k = Z.of_nat size + i)).

(** *** Heaps as the intended use of the class builds them *)

(** Every node has arrays of [n_actions] cells, its visit counts are
    64-bit integers, and its parent, if any, was allocated before it and
    has [prev_action] among its actions. *)
Definition well_formed_node (h : heap) (c : addr) (nd : _MCTSNode) : Prop :=
  0 ≤ n_actions nd ∧
  length (_child_visit_count nd) = Z.to_nat (n_actions nd) ∧
  length (_child_total_value nd) = Z.to_nat (n_actions nd) ∧
  length (_original_prior nd) = Z.to_nat (n_actions nd) ∧
  length (_child_prior nd) = Z.to_nat (n_actions nd) ∧
  Forall (fun x => fits_int64 x = true) (_child_visit_count nd) ∧
  match parent nd with
  | None => True
  | Some p =>
      (p < c)%nat ∧ fits_int64 (prev_action nd) = true ∧
      ∃ pn, h !! p = Some pn ∧ 0 ≤ prev_action nd < n_actions pn
  end.

Definition well_formed (h : heap) : Prop :=
  ∀ c nd, h !! c = Some nd → well_formed_node h c nd.

End Node.

Arguments _MCTSNode : clear implicits.

(** *** Name resolution for [child_U] *)

(** The names bound at module level by the imports and class statements
    of [mcts.py], and by the interpreter for every module. *)
Definition module_globals : list string :=
  [ "annotations"; "torch"; "Dict"; "TensorDict"; "EnvBase";
    "MCTSPlanner"; "_MCTSNode";
    "__name__"; "__doc__"; "__package__"; "__loader__"; "__spec__";
    "__file__"; "__cached__"; "__builtins__" ].

(** The exception classes of Python's [builtins] module. *)
Definition builtin_exceptions : list string :=
  [ "BaseException"; "BaseExceptionGroup"; "Exception"; "ExceptionGroup";
    "ArithmeticError"; "AssertionError"; "AttributeError";
    "BlockingIOError"; "BrokenPipeError"; "BufferError"; "BytesWarning";
    "ChildProcessError"; "ConnectionAbortedError"; "ConnectionError";
    "ConnectionRefusedError"; "ConnectionResetError"; "DeprecationWarning";
    "EOFError"; "EncodingWarning"; "EnvironmentError"; "FileExistsError";
    "FileNotFoundError"; "FloatingPointError"; "FutureWarning";
    "GeneratorExit"; "IOError"; "ImportError"; "ImportWarning";
    "IndentationError"; "IndexError"; "InterruptedError";
    "IsADirectoryError"; "KeyError"; "KeyboardInterrupt"; "LookupError";
    "MemoryError"; "ModuleNotFoundError"; "NameError";
    "NotADirectoryError"; "NotImplementedError"; "OSError";
    "OverflowError"; "PendingDeprecationWarning"; "PermissionError";
    "ProcessLookupError"; "RecursionError"; "ReferenceError";
    "ResourceWarning"; "RuntimeError"; "RuntimeWarning";
    "StopAsyncIteration"; "StopIteration"; "SyntaxError"; "SyntaxWarning";
    "SystemError"; "SystemExit"; "TabError"; "TimeoutError"; "TypeError";
    "UnboundLocalError"; "UnicodeDecodeError"; "UnicodeEncodeError";
    "UnicodeError"; "UnicodeTranslateError"; "UnicodeWarning";
    "UserWarning"; "ValueError"; "Warning"; "ZeroDivisionError" ].

(** The functions, types and constants of Python's [builtins] module. *)
Definition builtin_functions : list string :=
  [ "abs"; "aiter"; "all"; "anext"; "any"; "ascii"; "bin"; "bool";
    "breakpoint"; "bytearray"; "bytes"; "callable"; "chr"; "classmethod";
    "compile"; "complex"; "copyright"; "credits"; "delattr"; "dict";
    "dir"; "divmod"; "enumerate"; "eval"; "exec"; "exit"; "filter";
    "float"; "format"; "frozenset"; "getattr"; "globals"; "hasattr";
    "hash"; "help"; "hex"; "id"; "input"; "int"; "isinstance";
    "issubclass"; "iter"; "len"; "license"; "list"; "locals"; "map";
    "max"; "memoryview"; "min"; "next"; "object"; "oct"; "open"; "ord";
    "pow"; "print"; "property"; "quit"; "range"; "repr"; "reversed";
    "round"; "set"; "setattr"; "slice"; "sorted"; "staticmethod"; "str";
    "sum"; "super"; "tuple"; "type"; "vars"; "zip"; "__import__";
    "__build_class__"; "__debug__";
    "True"; "False"; "None"; "Ellipsis"; "NotImplemented" ].

Definition builtins : list string := builtin_functions ++ builtin_exceptions.

(** What [__init__] binds on an instance, and what the class body binds. *)
Definition instance_attributes : list string :=
  [ "state"; "n_actions"; "env"; "parent"; "children"; "prev_action";
    "_is_expanded"; "_n_vlosses"; "_child_visit_count";
    "_child_total_value"; "_original_prior"; "_child_prior" ].

Definition class_attributes : list string :=
  [ "__init__"; "visit_count"; "total_value"; "action_value"; "child_U" ].

(** Objects as far as [child_U] can tell them apart. *)
Inductive pyobj : Type :=
| PyInt (z : Z)
| PySelf (a : addr)
| PyGlobal (name : string)
| PyGetattr (o : pyobj) (name : string)
| PyCall (f : pyobj) (arg : pyobj)
| PyBinOp (op : string) (a b : pyobj).

(** Loading a name that is not local to the function: the module's
    globals [G], then the builtins. *)
Definition load_global (G : list string) (name : string) : result pyobj :=
  if bool_decide (name ∈ G ++ builtins)
  then Ok (PyGlobal name)
  else Raise (NameError name).

Definition getattr (o : pyobj) (name : string) : result pyobj :=
  match o with
  | PySelf _ =>
      if bool_decide (name ∈ instance_attributes ++ class_attributes)
      then Ok (PyGetattr o name)
      else Raise (AttributeError
                    ("'_MCTSNode' object has no attribute '" +:+ name +:+ "'"))
  | _ => Ok (PyGetattr o name)
  end.

(** The body of the [child_U] property,
    [c_PUCT * math.sqrt(1 + self.N) * self.child_prior / (1 + self.child_N)],
    operands evaluated left to right, in a module namespace [G]. *)
Definition child_U_in (G : list string) (self : addr) : result pyobj :=
  c ← load_global G "c_PUCT";
  m ← load_global G "math";
  sqrt ← getattr m "sqrt";
  n ← getattr (PySelf self) "N";
  root ← Ok (PyCall sqrt (PyBinOp "+" (PyInt 1) n));
  prior ← getattr (PySelf self) "child_prior";
  child_n ← getattr (PySelf self) "child_N";
  Ok (PyBinOp "/" (PyBinOp "*" (PyBinOp "*" c root) prior)
                  (PyBinOp "+" (PyInt 1) child_n)).

Definition child_U (self : addr) : result pyobj :=
  child_U_in module_globals self.

End MCTS.

(** ** The pretraining loop ([examples/decision_transformer/online_dt.py]) *)

Module OnlineDT.

Local Open Scope Q_scope.

(** Looking a name up among the entries of a mapping. *)
Fixpoint lookup_key (key : string) (entries : list (string * Q)) : option Q :=
  match entries with
  | [] => None
  | (k, v) :: rest => if String.eqb k key then Some v else lookup_key key rest
  end.

(** The result of [loss_module(...)], a mapping from names to values:
    [items] are its entries, in the order in which the loss module lists
    them and with no name twice; the three names that [main] reads are
    among them. *)
Record LossVals : Type := mk_LossVals {
  (** [loss_vals.items()] *)
  items : list (string * Q);
  items_NoDup : NoDup (items.*1);
  has_loss_log_likelihood :
    is_Some (lookup_key "loss_log_likelihood" items);
  has_loss_entropy : is_Some (lookup_key "loss_entropy" items);
  has_loss_alpha : is_Some (lookup_key "loss_alpha" items)
}.

(** [loss_vals["loss_log_likelihood"]] *)
Definition loss_log_likelihood (l : LossVals) : Q :=
  is_Some_proj (has_loss_log_likelihood l).

(** [loss_vals["loss_entropy"]] *)
Definition loss_entropy (l : LossVals) : Q :=
  is_Some_proj (has_loss_entropy l).

(** [loss_vals["loss_alpha"]] *)
Definition loss_alpha (l : LossVals) : Q :=
  is_Some_proj (has_loss_alpha l).

(** The configuration entries [main] reads before the loop. *)
Record Config : Type := mk_Config {
  pretrain_gradient_steps : Z;
  clip_grad : Q;
  eval_steps : Z;
  pretrain_log_interval : Z;
  reward_scaling : Q
}.

(** The collaborators of [main], which live outside this file: the
    buffer, the loss module, autograd, the two optimizers, the scheduler,
    the evaluation environment and the logger.  [World] is everything
    they own (parameters, optimizer and scheduler state, random state). *)
Class Collaborators (World Batch Traj : Type) : Type := {
  (** [offline_buffer.sample()] *)
  sample : World → World * Batch;
  (** [loss_module(data.to(model_device))] *)
  loss_module : World → Batch → LossVals;
  (** what [transformer_loss.backward()] adds to the [.grad] of the
      policy parameters *)
  backward_transformer : World → Batch → list Q;
  (** [transformer_optim.step()], reading the [.grad] it is given *)
  transformer_step : option (list Q) → World → World;
  (** [temperature_optim.zero_grad(); temperature_loss.backward();
      temperature_optim.step()] *)
  temperature_update : World → Batch → World;
  (** [scheduler.step()] *)
  scheduler_step : World → World;
  (** [test_env.rollout(max_steps=..., policy=inference_policy, ...)] *)
  rollout : Z → World → World * Traj;
  (** [td["next", "reward"].sum(1).mean().item()] *)
  mean_total_reward : Traj → Q;
  (** the norm [clip_grad_norm_] takes of the gradients *)
  grad_norm : list Q → Q;
  (** whether [zero_grad()] resets [.grad] to [None] or to zeros *)
  set_to_none : bool;
  (** whether [make_logger] returned a logger *)
  logger_is_not_None : bool
}.

(** What one iteration did, in the order of the loop body. *)
Record Iteration {Traj : Type} : Type := mk_Iteration {
  it_index : nat;
  (** [transformer_loss.item()] *)
  it_loss : Q;
  (** the gradient [transformer_loss.backward()] produced *)
  it_backward : list Q;
  (** the [.grad] that [transformer_optim.step()] read *)
  it_step_grad : option (list Q);
  (** the trajectory of the rollout, when one ran *)
  it_rollout : option Traj;
  (** [eval_reward] *)
  it_eval_reward : Q;
  (** the calls [logger.log_scalar(name, value, step)] *)
  it_logged : list (string * Q * nat);
  (** [pbar.set_description]: loss, init loss, reward, init reward *)
  it_shown_loss : Q;
  it_shown_l0 : Q;
  it_shown_reward : Q;
  it_shown_r0 : Q
}.

Arguments Iteration : clear implicits.

(** The variables of [main] that the loop reads and writes. *)
Record Locals {World Traj : Type} : Type := mk_Locals {
  world : World;
  policy_grad : option (list Q);
  r0 : option Q;
  l0 : option Q;
  eval_td : option Traj;
  trace : list (Iteration Traj)
}.

Arguments Locals : clear implicits.

(** Python's [a / b] on floats. *)
Definition py_truediv (a b : Q) : result Q :=
  if Qeq_bool b 0 then Raise ZeroDivisionError else Ok (a / b).

(** Python's [a % b] on integers; [Z.modulo] rounds like Python. *)
Definition py_mod (a b : Z) : result Z :=
  if (b =? 0)%Z then Raise ZeroDivisionError else Ok (a `mod` b)%Z.

(** Reading a local variable that may not have been assigned yet. *)
Definition load_local {A : Type} (name : string) (v : option A) : result A :=
  match v with
  | Some a => Ok a
  | None => Raise (UnboundLocalError name)
  end.

(** [optimizer.zero_grad()] *)
Definition zero_grad (to_none : bool) (g : option (list Q)) : option (list Q) :=
  if to_none then None
  else match g with
       | None => None
       | Some v => Some (replicate (length v) 0)
       end.

(** [torch.nn.utils.clip_grad_norm_(parameters, max_norm)]: parameters
    without a gradient are skipped. *)
Definition clip_grad_norm_ (norm : list Q → Q) (max_norm : Q)
    (g : option (list Q)) : option (list Q) :=
  match g with
  | None => None
  | Some v =>
      let total_norm := norm v in
      let clip_coef := max_norm / (total_norm + (1 # 1000000)) in
      let clip_coef_clamped := Qmin clip_coef 1 in
      Some (Qmult clip_coef_clamped <$> v)
  end.

(** [loss.backward()]: gradients accumulate into [.grad]. *)
Definition backward (g : option (list Q)) (new : list Q) : option (list Q) :=
  match g with
  | None => Some new
  | Some old => Some (zip_with Qplus old new)
  end.

Section Main.

Context {World Batch Traj : Type} {C : Collaborators World Batch Traj}.

(** The body of [for i in range(pretrain_gradient_steps)]. *)
Definition pretrain_step (cfg : Config) (i : nat)
    (s : Locals World Traj) : result (Locals World Traj) :=
  let (w1, data) := sample (world s) in
  let loss_vals := loss_module w1 data in
  let transformer_loss := loss_log_likelihood loss_vals + loss_entropy loss_vals in
  let g1 := zero_grad set_to_none (policy_grad s) in
  let g2 := clip_grad_norm_ grad_norm (clip_grad cfg) g1 in
  let produced := backward_transformer w1 data in
  let g3 := backward g2 produced in
  let w2 := transformer_step g3 w1 in
  let w3 := temperature_update w2 data in
  let w4 := scheduler_step w3 in
  r ← py_mod (Z.of_nat i) (pretrain_log_interval cfg);
  let ran := if (r =? 0)%Z then Some (rollout (eval_steps cfg) w4) else None in
  let w5 := from_option fst w4 ran in
  let td := from_option (fun x => Some x.2) (eval_td s) ran in
  r0' ← match r0 s with
        | None =>
            t ← load_local "eval_td" td;
            py_truediv (mean_total_reward t) (reward_scaling cfg)
        | Some x => Ok x
        end;
  let l0' := default transformer_loss (l0 s) in
  t ← load_local "eval_td" td;
  eval_reward ← py_truediv (mean_total_reward t) (reward_scaling cfg);
  let logged :=
    if logger_is_not_None
    then ((fun kv => (kv.1, kv.2, i)) <$> items loss_vals)
           ++ [("evaluation reward"%string, eval_reward, i)]
    else [] in
  Ok {| world := w5; policy_grad := g3; r0 := Some r0'; l0 := Some l0';
        eval_td := td;
        trace := trace s ++
          [ {| it_index := i; it_loss := transformer_loss;
               it_backward := produced; it_step_grad := g3;
               it_rollout := snd <$> ran; it_eval_reward := eval_reward;
               it_logged := logged;
               it_shown_loss := transformer_loss; it_shown_l0 := l0';
               it_shown_reward := eval_reward; it_shown_r0 := r0' |} ] |}.

Fixpoint pretrain_loop (cfg : Config) (indices : list nat)
    (s : Locals World Traj) : result (Locals World Traj) :=
  match indices with
  | [] => Ok s
  | i :: rest => s' ← pretrain_step cfg i s; pretrain_loop cfg rest s'
  end.

(** The state at [print(" ***Pretraining*** ")]: [r0 = None],
    [l0 = None], [eval_td] not assigned, no gradient computed yet. *)
Definition initially (w : World) : Locals World Traj :=
  {| world := w; policy_grad := None; r0 := None; l0 := None;
     eval_td := None; trace := [] |}.

(** [main], from the loop on; [range(n)] is empty for [n <= 0]. *)
Definition main (cfg : Config) (w : World) : result (Locals World Traj) :=
  pretrain_loop cfg (seq 0 (Z.to_nat (pretrain_gradient_steps cfg)))
    (initially w).

(** *** Vocabulary for the properties of the loop *)

(** The loss that iteration 0 computes when [main] starts in world [w]. *)
Definition first_transformer_loss (w : World) : Q :=
  let (w1, data) := sample w in
  loss_log_likelihood (loss_module w1 data) + loss_entropy (loss_module w1 data).

(** Iteration [i], run from [s], returned [s'] and recorded [it]; [td] is
    the trajectory that [eval_td] names afterwards. *)
Definition step_post (cfg : Config) (i : nat) (s s' : Locals World Traj)
    (it : Iteration Traj) (td : Traj) : Prop :=
  trace s' = trace s ++ [it] ∧
  eval_td s' = Some td ∧
  l0 s' = Some (it_shown_l0 it) ∧
  r0 s' = Some (it_shown_r0 it) ∧
  policy_grad s' = it_step_grad it ∧
  it_index it = i ∧
  (((Z.of_nat i `mod` pretrain_log_interval cfg)%Z = 0%Z ∧
    it_rollout it = Some td) ∨
   ((Z.of_nat i `mod` pretrain_log_interval cfg)%Z ≠ 0%Z ∧
    it_rollout it = None ∧ eval_td s = Some td)) ∧
  py_truediv (mean_total_reward td) (reward_scaling cfg)
    = Ok (it_eval_reward it) ∧
  it_shown_reward it = it_eval_reward it ∧
  it_shown_loss it = it_loss it ∧
  it_shown_l0 it = default (it_loss it) (l0 s) ∧
  it_shown_r0 it = default (it_eval_reward it) (r0 s) ∧
  it_loss it = first_transformer_loss (world s) ∧
  (logger_is_not_None = true →
     ("evaluation reward"%string, it_eval_reward it, i) ∈ it_logged it) ∧
  (logger_is_not_None = false → it_logged it = []) ∧
  it_step_grad it =
    backward (clip_grad_norm_ grad_norm (clip_grad cfg)
                (zero_grad set_to_none (policy_grad s)))
             (it_backward it).

(** Iteration [j] of the trace is the latest one, up to iteration [i],
    in which a rollout ran. *)
Definition latest_rollout (tr : list (Iteration Traj)) (i j : nat) : Prop :=
  (j ≤ i)%nat ∧
  (∃ itj, tr !! j = Some itj ∧ is_Some (it_rollout itj)) ∧
  ∀ m itm, (j < m ≤ i)%nat → tr !! m = Some itm → it_rollout itm = None.

(** What holds of iteration [i] of a trace [tr] whose first entry is
    [it0]: the rollout ran exactly when [i % pretrain_log_interval == 0];
    the description shows the loss and reward of this iteration next to
    those of [it0]; the reward is logged when there is a logger; and the
    reward was computed from the trajectory of the latest rollout. *)
Definition iteration_ok (cfg : Config) (it0 : Iteration Traj)
    (tr : list (Iteration Traj)) (i : nat) (it : Iteration Traj) : Prop :=
  it_index it = i ∧
  (is_Some (it_rollout it) ↔
   (Z.of_nat i `mod` pretrain_log_interval cfg)%Z = 0%Z) ∧
  it_shown_l0 it = it_loss it0 ∧
  it_shown_r0 it = it_eval_reward it0 ∧
  it_shown_loss it = it_loss it ∧
  it_shown_reward it = it_eval_reward it ∧
  (logger_is_not_None = true →
     ("evaluation reward"%string, it_eval_reward it, i) ∈ it_logged it) ∧
  (logger_is_not_None = false → it_logged it = []) ∧
  ∃ j itj td,
    latest_rollout tr i j ∧ tr !! j = Some itj ∧ it_rollout itj = Some td ∧
    py_truediv (mean_total_reward td) (reward_scaling cfg)
      = Ok (it_eval_reward it) ∧
    it_eval_reward it = it_eval_reward itj.

(** The state after [n >= 1] iterations. *)
Definition loop_inv (cfg : Config) (it0 : Iteration Traj) (n : nat)
    (s : Locals World Traj) : Prop :=
  length (trace s) = n ∧
  trace s !! 0%nat = Some it0 ∧
  l0 s = Some (it_loss it0) ∧
  r0 s = Some (it_eval_reward it0) ∧
  (∃ j itj td,
     latest_rollout (trace s) (n - 1) j ∧ trace s !! j = Some itj ∧
     it_rollout itj = Some td ∧ eval_td s = Some td ∧
     py_truediv (mean_total_reward td) (reward_scaling cfg)
       = Ok (it_eval_reward itj)) ∧
  ∀ i it, trace s !! i = Some it → iteration_ok cfg it0 (trace s) i it.

(** *** The progress bar *)

(** [pbar.update(k)] adds [k] to the counter of the bar. *)
Definition pbar_update (counter : Z) (k : Z) : Z := counter + k.

(** The loop body with its first statement, [pbar.update(i)]. *)
Definition pretrain_step_pbar (cfg : Config) (i : nat)
    (ps : Z * Locals World Traj) : result (Z * Locals World Traj) :=
  let counter := pbar_update ps.1 (Z.of_nat i) in
  s' ← pretrain_step cfg i ps.2;
  Ok (counter, s').

Fixpoint pretrain_loop_pbar (cfg : Config) (indices : list nat)
    (ps : Z * Locals World Traj) : result (Z * Locals World Traj) :=
  match indices with
  | [] => Ok ps
  | i :: rest =>
      ps' ← pretrain_step_pbar cfg i ps; pretrain_loop_pbar cfg rest ps'
  end.

(** [main] with [pbar = tqdm.tqdm(total=...)], whose counter starts at 0. *)
Definition main_pbar (cfg : Config) (w : World)
    : result (Z * Locals World Traj) :=
  pretrain_loop_pbar cfg (seq 0 (Z.to_nat (pretrain_gradient_steps cfg)))
    (0%Z, initially w).

(** *** More vocabulary *)



(** The iterations of a trace in which a rollout ran. *)
Definition rollouts_run (tr : list (Iteration Traj)) : list (Iteration Traj) :=
  filter (fun it => is_Some (it_rollout it)) tr.

End Main.

(** The configuration [cfg] with another gradient-clipping threshold. *)
Definition with_clip_grad (cfg : Config) (c : Q) : Config :=
  {| pretrain_gradient_steps := pretrain_gradient_steps cfg;
     clip_grad := c;
     eval_steps := eval_steps cfg;
     pretrain_log_interval := pretrain_log_interval cfg;
     reward_scaling := reward_scaling cfg |}.

End OnlineDT.

(** ** Concrete trees and runs, for evaluation *)

Module Examples.

Import MCTS.

(** The default of the constructor's [c_PUCT] argument, [1.38]. *)
Definition c_PUCT : Q := 138 # 100.

(** An allocator that never fails. *)
Definition plenty : Z → bool := fun _ => true.

(** A root with [n] actions and, under it, a child built for the action
    index [a]; states and environments carry no information. *)
Definition tree (n : Z) (a : Z)
    : result (addr * addr * list (_MCTSNode unit unit)) :=
  r ← __init__ plenty [] tt n tt None 0 c_PUCT;
  c ← __init__ plenty r.2 tt n tt (Some r.1) a c_PUCT;
  Ok (r.1, c.1, c.2).

(** The heap that [tree 3 1] builds (see [tree_3_1] below): the root at
    address 0, the child for action 1 at address 1. *)
Definition the_root : addr := 0%nat.
Definition the_child : addr := 1%nat.

Definition root3 : _MCTSNode unit unit :=
  {| state := tt; n_actions := 3; env := tt; parent := None; children := ∅;
     prev_action := 0; _is_expanded := false; _n_vlosses := 0;
     _child_visit_count := [0; 0; 0];
     _child_total_value := [Finite 0; Finite 0; Finite 0];
     _original_prior := [Finite 0; Finite 0; Finite 0];
     _child_prior := [Finite 0; Finite 0; Finite 0] |}.

Definition child_of_root3 (a : Z) : _MCTSNode unit unit :=
  {| state := tt; n_actions := 3; env := tt; parent := Some the_root;
     children := ∅; prev_action := a; _is_expanded := false;
     _n_vlosses := 0;
     _child_visit_count := [0; 0; 0];
     _child_total_value := [Finite 0; Finite 0; Finite 0];
     _original_prior := [Finite 0; Finite 0; Finite 0];
     _child_prior := [Finite 0; Finite 0; Finite 0] |}.

Definition tree3 (a : Z) : list (_MCTSNode unit unit) :=
  [root3; child_of_root3 a].

(** The same root with two children, at addresses 1 and 2. *)
Definition the_sibling : addr := 2%nat.

Definition family3 (a b : Z) : list (_MCTSNode unit unit) :=
  [root3; child_of_root3 a; child_of_root3 b].

Import OnlineDT.

(** The Euclidean norm of the gradient of a policy that has a single
    scalar parameter: its absolute value. *)
Definition abs_norm (g : list Q) : Q :=
  foldr (fun x acc => (Qabs x + acc)%Q) 0%Q g.

(** Collaborators that can be run.  The world counts the optimizer steps
    taken; the policy has one parameter, and every backward pass produces
    the gradient 3 for it; a rollout earns as many reward units as steps
    were taken before it. *)
Definition toy (to_none logger : bool) : Collaborators nat unit Q :=
  {| sample := fun w => (w, tt);
     loss_module := fun w _ =>
       mk_LossVals
         [ ("loss_log_likelihood"%string, inject_Z (Z.of_nat w));
           ("loss_entropy"%string, 1%Q);
           ("loss_alpha"%string, (1 # 2)%Q) ]
         ltac:(cbn;
               repeat (apply NoDup_cons_2;
                       [intros H;
                        repeat (apply elem_of_cons in H as [H|H];
                                [discriminate H|]);
                        exact (not_elem_of_nil _ H)|]);
               apply NoDup_nil_2)
         ltac:(eexists; reflexivity) ltac:(eexists; reflexivity)
         ltac:(eexists; reflexivity);
     backward_transformer := fun _ _ => [3%Q];
     transformer_step := fun _ w => S w;
     temperature_update := fun w _ => w;
     scheduler_step := fun w => w;
     rollout := fun _ w => (w, inject_Z (Z.of_nat w));
     mean_total_reward := fun td => td;
     grad_norm := abs_norm;
     set_to_none := to_none;
     logger_is_not_None := logger |}.

Definition toy_cfg : Config :=
  {| pretrain_gradient_steps := 3; clip_grad := (1 # 4)%Q;
     eval_steps := 1000; pretrain_log_interval := 2;
     reward_scaling := (1 # 1000)%Q |}.

End Examples.

(** * Properties of the tensor operations *)

Section TensorFacts.

Context {A : Type}.

Lemma normalize_index_Ok (size : nat) (i : Z) (k : nat) :
  normalize_index size i = Ok k →
  fits_int64 i = true ∧ (k < size)%nat ∧
  ((0 ≤ i ∧ Z.of_nat k = i) ∨ (i < 0 ∧ Z.of_nat k = Z.of_nat size + i)).
Proof.
  unfold normalize_index.
  destruct (fits_int64 i); simpl; [|discriminate].
  destruct (Z.leb_spec 0 i), (Z.ltb_spec i (Z.of_nat size)); simpl;
    try (intros [= <-]; split; [reflexivity|lia]).
  all: destruct (Z.leb_spec (- Z.of_nat size) i), (Z.ltb_spec i 0); simpl;
    try discriminate; try (intros [= <-]; split; [reflexivity|lia]).
Qed.

Lemma normalize_index_nonneg (size : nat) (i : Z) :
  fits_int64 i = true → 0 ≤ i < Z.of_nat size →
  normalize_index size i = Ok (Z.to_nat i).
Proof.
  intros Hfit [H0 Hlt]. unfold normalize_index. rewrite Hfit. simpl.
  destruct (Z.leb_spec 0 i); [|lia].
  destruct (Z.ltb_spec i (Z.of_nat size)); [reflexivity|lia].
Qed.

Lemma normalize_index_negative (size : nat) (i : Z) :
  fits_int64 i = true → - Z.of_nat size ≤ i < 0 →
  normalize_index size i = Ok (Z.to_nat (Z.of_nat size + i)).
Proof.
  intros Hfit [H0 Hlt]. unfold normalize_index. rewrite Hfit. simpl.
  destruct (Z.leb_spec 0 i); [lia|]. simpl.
  destruct (Z.leb_spec (- Z.of_nat size) i); [|lia].
  destruct (Z.ltb_spec i 0); [reflexivity|lia].
Qed.

Lemma normalize_index_outside (size : nat) (i : Z) :
  fits_int64 i = true → (i < - Z.of_nat size ∨ Z.of_nat size ≤ i) →
  normalize_index size i = Raise (IndexError i size).
Proof.
  intros Hfit Hout. unfold normalize_index. rewrite Hfit. simpl.
  destruct (Z.leb_spec 0 i), (Z.ltb_spec i (Z.of_nat size)); simpl; try lia.
  all: destruct (Z.leb_spec (- Z.of_nat size) i), (Z.ltb_spec i 0); simpl;
    try lia; reflexivity.
Qed.


Lemma getitem_Ok (t : list A) (i : Z) (x : A) :
  getitem t i = Ok x ↔
  ∃ k, normalize_index (length t) i = Ok k ∧ t !! k = Some x.
Proof.
  unfold getitem. split.
  - destruct (normalize_index (length t) i) as [k|e] eqn:Hk; simpl; [|discriminate].
    destruct (t !! k) as [y|] eqn:Hy; [|discriminate].
    intros [= <-]. eauto.
  - intros (k & -> & Hx). simpl. now rewrite Hx.
Qed.

Lemma getitem_Raise (t : list A) (i : Z) (e : exn) :
  normalize_index (length t) i = Raise e → getitem t i = Raise e.
Proof. intros H. unfold getitem. now rewrite H. Qed.

Lemma setitem_Ok (t t' : list A) (i : Z) (x : A) :
  setitem t i x = Ok t' ↔
  ∃ k, normalize_index (length t) i = Ok k ∧ t' = <[k := x]> t.
Proof.
  unfold setitem. split.
  - destruct (normalize_index (length t) i) as [k|e] eqn:Hk; simpl; [|discriminate].
    intros [= <-]. eauto.
  - intros (k & -> & ->). reflexivity.
Qed.


Lemma insert_same_but_cell (t : list A) (k : nat) (x : A) :
  MCTS.same_but_cell k t (<[k := x]> t).
Proof.
  split; [apply length_insert|].
  intros j Hj. now apply list_lookup_insert_ne.
Qed.

End TensorFacts.

(** * Properties of the single-precision numbers *)

Section FloatFacts.

Lemma setitem_float_Ok (t t' : list fval) (i : Z) (value : pyvalue) :
  setitem_float t i value = Ok t' ↔
  ∃ k x, to_float32 value = Ok x ∧
         normalize_index (length t) i = Ok k ∧ t' = <[k := x]> t.
Proof.
  unfold setitem_float. split.
  - destruct (to_float32 value) as [x|e]; [|discriminate].
    cbn [mbind result_bind]. intros Hset.
    apply setitem_Ok in Hset as (k & Hk & ->). eauto.
  - intros (k & x & -> & Hk & ->). cbn [mbind result_bind].
    apply setitem_Ok. eauto.
Qed.

Lemma round_half_even_bounds (n d : Z) :
  0 < d → n / d ≤ round_half_even n d ≤ n / d + 1.
Proof.
  intros Hd. unfold round_half_even.
  destruct (2 * (n `mod` d) ?= d); [destruct (Z.even (n / d))|..]; lia.
Qed.

Lemma round_half_even_1 (n : Z) : round_half_even n 1 = n.
Proof.
  unfold round_half_even. rewrite Z.mod_1_r, Z.div_1_r. reflexivity.
Qed.

Lemma floor_log2_int (z : Z) : 0 < z → floor_log2 z 1 = Z.log2 z.
Proof.
  intros Hz. unfold floor_log2. change (Z.log2 1) with 0. rewrite Z.sub_0_r.
  pose proof (Z.log2_nonneg z) as Hnn.
  destruct (Z.leb_spec 0 (Z.log2 z)); [|lia].
  pose proof (Z.log2_spec z Hz) as [Hlo _].
  destruct (Z.leb_spec (1 * 2 ^ Z.log2 z) z); [reflexivity|lia].
Qed.

(** The cast of a positive 64-bit integer to [float32] is a number, and
    it is at least 1. *)
Lemma f32_of_int_ge_1 (z : Z) :
  1 ≤ z ≤ 2 ^ 64 →
  ∃ d, f32_of_int z = Finite d ∧ (1 <= d)%Q.
Proof.
  intros [Hlo Hhi]. destruct z as [|p|p]; try lia.
  unfold f32_of_int, round_f32, inject_Z. cbn [Qnum Qden].
  unfold round_magnitude. rewrite floor_log2_int by lia.
  pose proof (Z.log2_spec (Z.pos p) ltac:(lia)) as [Hpow_lo Hpow_hi].
  pose proof (Z.log2_nonneg (Z.pos p)) as He0.
  assert (He64 : Z.log2 (Z.pos p) ≤ 64).
  { apply Z.log2_le_mono in Hhi. now rewrite Z.log2_pow2 in Hhi by lia. }
  set (e := Z.log2 (Z.pos p)) in *.
  rewrite Z.max_l by lia. cbn [fst snd].
  destruct (Z.leb_spec 0 (e - 23)) as [Hs|Hs].
  - set (s := e - 23) in *.
    assert (Hps : 0 < 2 ^ s) by (apply Z.pow_pos_nonneg; lia).
    assert (He : 2 ^ e = 2 ^ 23 * 2 ^ s).
    { rewrite <- Z.pow_add_r by lia. f_equal. unfold s. lia. }
    assert (He1 : 2 ^ Z.succ e = 2 ^ 24 * 2 ^ s).
    { rewrite <- Z.pow_add_r by lia. f_equal. unfold s. lia. }
    pose proof (round_half_even_bounds (Z.pos p) (1 * 2 ^ s) ltac:(lia)) as [Hm_lo Hm_hi].
    rewrite Z.mul_1_l in *.
    assert (Hq_lo : 2 ^ 23 ≤ Z.pos p / 2 ^ s)
      by (apply Z.div_le_lower_bound; lia).
    assert (Hq_hi : Z.pos p / 2 ^ s < 2 ^ 24)
      by (apply Z.div_lt_upper_bound; lia).
    set (m := round_half_even (Z.pos p) (2 ^ s)) in *.
    assert (Hbig : 2 ^ s ≤ 2 ^ 41) by (apply Z.pow_le_mono_r; unfold s; lia).
    assert (Hfin : m * 2 ^ s < 2 ^ 128).
    { apply Z.le_lt_trans with (2 ^ 24 * 2 ^ 41); [|reflexivity].
      apply Z.mul_le_mono_nonneg; lia. }
    destruct (Z.leb_spec (2 ^ 128) (m * 2 ^ s)); [lia|]. cbn [andb].
    eexists. split; [reflexivity|].
    unfold scale2. destruct (Z.leb_spec 0 s); [|lia].
    unfold Qle, inject_Z. cbn [Qnum Qden]. nia.
  - cbn [andb]. rewrite round_half_even_1.
    eexists. split; [reflexivity|].
    unfold scale2. destruct (Z.leb_spec 0 (e - 23)); [lia|].
    rewrite Qred_correct.
    assert (Hps : 0 < 2 ^ (- (e - 23))) by (apply Z.pow_pos_nonneg; lia).
    unfold Qle. cbn [Qnum Qden]. rewrite Z2Pos.id by lia. nia.
Qed.

Lemma floor_log2_lt (n : Z) (d : positive) (k : Z) :
  0 < n → 0 ≤ k → n < Zpos d * 2 ^ k → floor_log2 n d < k.
Proof.
  intros Hn Hk Hlt. unfold floor_log2.
  pose proof (Z.log2_spec n Hn) as [Hn_lo Hn_hi].
  pose proof (Z.log2_spec (Zpos d) ltac:(lia)) as [Hd_lo Hd_hi].
  pose proof (Z.log2_nonneg n) as Hn0.
  pose proof (Z.log2_nonneg (Zpos d)) as Hd0.
  assert (He : Z.log2 n - Z.log2 (Z.pos d) ≤ k).
  { assert (H : 2 ^ Z.log2 n < 2 ^ (Z.succ (Z.log2 (Z.pos d)) + k)).
    { rewrite Z.pow_add_r by lia.
      assert (0 < 2 ^ k) by (apply Z.pow_pos_nonneg; lia). nia. }
    apply Z.pow_lt_mono_r_iff in H; lia. }
  set (e := Z.log2 n - Z.log2 (Z.pos d)) in *.
  destruct (decide (e = k)) as [->|Hne].
  - destruct (Z.leb_spec 0 k); [|lia].
    destruct (Z.leb_spec (Z.pos d * 2 ^ k) n); lia.
  - destruct (if 0 <=? e then _ else _); lia.
Qed.

Lemma round_half_even_le (n d K : Z) :
  0 < d → n ≤ K * d → round_half_even n d ≤ K.
Proof.
  intros Hd Hn.
  pose proof (Z.div_mod n d ltac:(lia)) as Hdm.
  pose proof (Z.mod_pos_bound n d Hd) as Hr.
  unfold round_half_even.
  assert (Hq : n / d ≤ K) by nia.
  destruct (decide (n / d = K)) as [HK|HK].
  - assert (n `mod` d = 0) as -> by nia.
    destruct (Z.compare_spec (2 * 0) d); lia.
  - destruct (2 * (n `mod` d) ?= d); [destruct (Z.even (n / d))|..]; lia.
Qed.

Lemma round_magnitude_finite (p d : positive) :
  Zpos p ≤ (2 ^ 24 - 1) * 2 ^ 104 * Zpos d →
  (0 <=? (round_magnitude (Zpos p) d).2) &&
  (2 ^ 128 <=? (round_magnitude (Zpos p) d).1 * 2 ^ (round_magnitude (Zpos p) d).2)
  = false.
Proof.
  intros Hle. unfold round_magnitude. cbn [fst snd].
  pose proof (floor_log2_lt (Zpos p) d 128 ltac:(lia) ltac:(lia) ltac:(lia)) as Hfl.
  set (s := Z.max (floor_log2 (Z.pos p) d) (-126) - 23).
  assert (Hs : s ≤ 104) by (unfold s; lia).
  destruct (Z.leb_spec 0 s) as [Hs0|Hs0]; [|reflexivity]. cbn [andb].
  assert (Hps : 0 < 2 ^ s) by (apply Z.pow_pos_nonneg; lia).
  assert (Hsplit : 2 ^ 104 = 2 ^ (104 - s) * 2 ^ s).
  { rewrite <- Z.pow_add_r by lia. f_equal. lia. }
  assert (Hpt : 0 < 2 ^ (104 - s)) by (apply Z.pow_pos_nonneg; lia).
  pose proof (round_half_even_le (Zpos p) (Zpos d * 2 ^ s)
                ((2 ^ 24 - 1) * 2 ^ (104 - s)) ltac:(lia)) as Hm.
  assert (Hm' : round_half_even (Z.pos p) (Z.pos d * 2 ^ s)
                ≤ (2 ^ 24 - 1) * 2 ^ (104 - s)).
  { apply Hm. rewrite Hsplit in Hle. lia. }
  apply Z.leb_gt.
  apply Z.le_lt_trans with ((2 ^ 24 - 1) * 2 ^ 104); [|reflexivity].
  rewrite Hsplit. nia.
Qed.

(** Rounding a number within the [float32] range gives a number. *)
Lemma round_f32_finite (x : Q) :
  (Qabs x <= f32_max)%Q → ∃ q, round_f32 x = Finite q.
Proof.
  destruct x as [n d]. unfold Qabs, Qle, f32_max, inject_Z, round_f32.
  cbn [Qnum Qden]. rewrite Z.mul_1_r. intros Hle.
  destruct n as [|p|p]; cbn [Z.abs] in Hle.
  - eauto.
  - rewrite round_magnitude_finite by lia. eauto.
  - rewrite round_magnitude_finite by lia. eauto.
Qed.

(** The cast of a non-zero 64-bit integer to [float32] is a number of
    magnitude at least 1. *)
Lemma f32_of_int_nonzero (z : Z) :
  z ≠ 0 → - 2 ^ 64 ≤ z ≤ 2 ^ 64 →
  ∃ d, f32_of_int z = Finite d ∧ (1 <= Qabs d)%Q.
Proof.
  intros Hz Hr. destruct z as [|p|p]; [lia|..].
  - destruct (f32_of_int_ge_1 (Zpos p) ltac:(lia)) as (d & Hd & Hd1).
    exists d. split; [exact Hd|]. rewrite Qabs_pos; [exact Hd1|].
    apply Qle_trans with 1%Q; [discriminate|exact Hd1].
  - destruct (f32_of_int_ge_1 (Zpos p) ltac:(lia)) as (d & Hd & Hd1).
    revert Hd. unfold f32_of_int, round_f32, inject_Z. cbn [Qnum Qden].
    destruct (_ && _); [discriminate|]. intros [= <-].
    eexists. split; [reflexivity|]. rewrite Qabs_opp.
    rewrite Qabs_pos; [exact Hd1|].
    apply Qle_trans with 1%Q; [discriminate|exact Hd1].
Qed.

Lemma Qabs_div_le (q d : Q) :
  (1 <= Qabs d)%Q → (Qabs (q / d) <= Qabs q)%Q.
Proof.
  intros Hd. unfold Qdiv. rewrite Qabs_Qmult, Qabs_Qinv.
  assert (H0 : (0 < Qabs d)%Q) by (apply Qlt_le_trans with 1%Q; [reflexivity|exact Hd]).
  apply Qle_shift_div_r; [exact H0|].
  rewrite <- (Qmult_1_r (Qabs q)) at 1.
  apply Qmult_le_compat_nonneg; split;
    [apply Qabs_nonneg|apply Qle_refl|discriminate|exact Hd].
Qed.

Lemma f32_div_finite (q d : Q) :
  (Qabs q <= f32_max)%Q → (1 <= Qabs d)%Q →
  ∃ q', f32_div (Finite q) (Finite d) = Finite q'.
Proof.
  intros Hq Hd. unfold f32_div.
  destruct (Z.eqb_spec (Qnum d) 0) as [Hz|Hnz].
  - exfalso. destruct d as [dn dd]. cbn in Hz. subst dn.
    revert Hd. unfold Qabs, Qle. cbn. lia.
  - apply round_f32_finite.
    apply Qle_trans with (Qabs q); [apply Qabs_div_le, Hd|exact Hq].
Qed.

Lemma f32_div_by_zero (v : fval) (q : Q) : f32_div v (Finite 0) ≠ Finite q.
Proof.
  destruct v as [x| | |]; cbn; try discriminate.
  destruct (Qnum x ?= 0); discriminate.
Qed.

End FloatFacts.

(** * Properties of the search tree node *)

Section NodeFacts.

Import MCTS.

Context {TensorDict EnvBase : Type}.

Abbreviation node := (_MCTSNode TensorDict EnvBase).
Abbreviation heap := (list (_MCTSNode TensorDict EnvBase)).

Lemma denotes_normalize_index (size : nat) (i : Z) (k : nat) :
  normalize_index size i = Ok k ↔ fits_int64 i = true ∧ denotes size i k.
Proof.
  split.
  - intros H. apply normalize_index_Ok in H. unfold denotes. tauto.
  - intros (Hfit & Hk & [[H0 Hi]|[H0 Hi]]).
    + rewrite normalize_index_nonneg by (auto; lia). f_equal. lia.
    + rewrite normalize_index_negative by (auto; lia). f_equal. lia.
Qed.

Lemma deref_Some (h : heap) (a : addr) (nd : node) :
  h !! a = Some nd → deref h a = Ok nd.
Proof. intros H. unfold deref. now rewrite H. Qed.

Lemma parent_node_Some (h : heap) (nd pn : node) (p : addr) (attr : string) :
  parent nd = Some p → h !! p = Some pn →
  parent_node h nd attr = Ok (p, pn).
Proof.
  intros Hp Hpn. unfold parent_node. rewrite Hp.
  now rewrite (deref_Some _ _ _ Hpn).
Qed.

Lemma parent_node_None (h : heap) (nd : node) (attr : string) :
  parent nd = None → parent_node h nd attr = Raise (NoneType_has_no attr).
Proof. intros Hp. unfold parent_node. now rewrite Hp. Qed.

Section WithParent.

Variables (h : heap) (self p : addr) (nd pn : node).
Hypothesis Hself : h !! self = Some nd.
Hypothesis Hparent : parent nd = Some p.
Hypothesis Hp : h !! p = Some pn.

Lemma visit_count_eq :
  visit_count h self = getitem (_child_visit_count pn) (prev_action nd).
Proof.
  unfold visit_count. rewrite (deref_Some _ _ _ Hself). simpl.
  now rewrite (parent_node_Some _ _ _ _ _ Hparent Hp).
Qed.

Lemma total_value_eq :
  total_value h self = getitem (_child_total_value pn) (prev_action nd).
Proof.
  unfold total_value. rewrite (deref_Some _ _ _ Hself). simpl.
  now rewrite (parent_node_Some _ _ _ _ _ Hparent Hp).
Qed.

Lemma set_visit_count_eq (value : Z) :
  set_visit_count h self value =
  (t ← setitem_long (_child_visit_count pn) (prev_action nd) value;
   Ok (<[p := with_child_visit_count pn t]> h)).
Proof.
  unfold set_visit_count. rewrite (deref_Some _ _ _ Hself). simpl.
  now rewrite (parent_node_Some _ _ _ _ _ Hparent Hp).
Qed.

Lemma set_total_value_eq (value : pyvalue) :
  set_total_value h self value =
  (t ← setitem_float (_child_total_value pn) (prev_action nd) value;
   Ok (<[p := with_child_total_value pn t]> h)).
Proof.
  unfold set_total_value. rewrite (deref_Some _ _ _ Hself). simpl.
  now rewrite (parent_node_Some _ _ _ _ _ Hparent Hp).
Qed.

Lemma action_value_eq :
  action_value h self =
  (v ← getitem (_child_total_value pn) (prev_action nd);
   n ← getitem (_child_visit_count pn) (prev_action nd);
   Ok (true_divide v (wrap_int64 (1 + n)))).
Proof. unfold action_value. now rewrite total_value_eq, visit_count_eq. Qed.

(** After the parent object was replaced by [pn'], which kept [parent]
    and [prev_action], the child still points at [p] with the same
    action. *)
Lemma self_after_update (pn' : node) :
  parent pn' = parent pn → prev_action pn' = prev_action pn →
  ∃ nd', <[p := pn']> h !! self = Some nd' ∧
         parent nd' = Some p ∧ prev_action nd' = prev_action nd.
Proof.
  intros Hpar Hact. destruct (decide (self = p)) as [->|Hne].
  - exists pn'. rewrite list_lookup_insert_eq by (eapply lookup_lt_Some; eauto).
    assert (nd = pn) as -> by congruence. split; [reflexivity|]. split; congruence.
  - exists nd. rewrite list_lookup_insert_ne by congruence. auto.
Qed.

Lemma lookup_parent_after_update (pn' : node) :
  <[p := pn']> h !! p = Some pn'.
Proof. apply list_lookup_insert_eq. eapply lookup_lt_Some; eauto. Qed.

Lemma update_same_but_node (pn' : node) : same_but_node p h (<[p := pn']> h).
Proof.
  split; [apply length_insert|].
  intros q Hq. apply list_lookup_insert_ne. congruence.
Qed.

End WithParent.

Lemma with_child_visit_count_others (nd : node) (t : list Z) :
  same_but_visit_counts nd (with_child_visit_count nd t).
Proof. repeat split. Qed.

Lemma with_child_total_value_others (nd : node) (t : list fval) :
  same_but_total_values nd (with_child_total_value nd t).
Proof. repeat split. Qed.

Lemma set_visit_count_Ok (h h' : heap) (self p : addr) (nd pn : node) (value : Z) :
  h !! self = Some nd → parent nd = Some p → h !! p = Some pn →
  set_visit_count h self value = Ok h' →
  ∃ k, normalize_index (length (_child_visit_count pn)) (prev_action nd) = Ok k ∧
       fits_int64 value = true ∧
       h' = <[p := with_child_visit_count pn (<[k := value]> (_child_visit_count pn))]> h.
Proof.
  intros Hself Hparent Hp. rewrite (set_visit_count_eq _ _ _ _ _ Hself Hparent Hp).
  unfold setitem_long. destruct (fits_int64 value); [|discriminate].
  destruct (setitem _ _ _) as [t|e] eqn:Hset; [|discriminate].
  simpl. intros [= <-]. apply setitem_Ok in Hset as (k & Hk & ->). eauto.
Qed.

Lemma set_total_value_Ok (h h' : heap) (self p : addr) (nd pn : node)
    (value : pyvalue) :
  h !! self = Some nd → parent nd = Some p → h !! p = Some pn →
  set_total_value h self value = Ok h' →
  ∃ k x, to_float32 value = Ok x ∧
       normalize_index (length (_child_total_value pn)) (prev_action nd) = Ok k ∧
       h' = <[p := with_child_total_value pn (<[k := x]> (_child_total_value pn))]> h.
Proof.
  intros Hself Hparent Hp. rewrite (set_total_value_eq _ _ _ _ _ Hself Hparent Hp).
  destruct (setitem_float _ _ _) as [t|e] eqn:Hset; [|discriminate].
  simpl. intros [= <-].
  apply setitem_float_Ok in Hset as (k & x & Hx & Hk & ->). eauto 6.
Qed.

End NodeFacts.

Section NodeClaims.

Import MCTS.

Context {TensorDict EnvBase : Type}.

Abbreviation node := (_MCTSNode TensorDict EnvBase).
Abbreviation heap := (list (_MCTSNode TensorDict EnvBase)).

(** C1, amended.  For a node with a parent, the [visit_count] property is
    one cell of the parent's [_child_visit_count]: the cell that the index
    [prev_action] denotes ([prev_action] itself, or [n + prev_action] when
    it is negative, for an array of [n] cells).  Reading returns the
    content of that cell.  A write returns exactly when the value is a
    64-bit integer and [prev_action] denotes a cell; it has then put the
    value in that cell and has changed no other cell of the array, no
    other attribute of the parent and no other object (the child
    included), and the value is read back.  A write that raises changes
    nothing.  The same holds for [total_value] and the parent's
    [_child_total_value], where the value has to convert to [float32]
    and the cell receives the converted value. *)
Theorem property_is_one_cell_of_parent
    (h : heap) (self p : addr) (nd pn : node) :
  h !! self = Some nd → parent nd = Some p → h !! p = Some pn →
  let counts := _child_visit_count pn in
  let totals := _child_total_value pn in
  let a := prev_action nd in
  (∀ n, visit_count h self = Ok n ↔
        ∃ k, fits_int64 a = true ∧ denotes (length counts) a k ∧
             counts !! k = Some n) ∧
  (∀ v, total_value h self = Ok v ↔
        ∃ k, fits_int64 a = true ∧ denotes (length totals) a k ∧
             totals !! k = Some v) ∧
  (∀ value h', set_visit_count h self value = Ok h' →
        ∃ k, denotes (length counts) a k ∧
             wrote_one_cell _child_visit_count same_but_visit_counts
               h h' p k value ∧
             visit_count h' self = Ok value) ∧
  (∀ value h', set_total_value h self value = Ok h' →
        ∃ k x, to_float32 value = Ok x ∧
             denotes (length totals) a k ∧
             wrote_one_cell _child_total_value same_but_total_values
               h h' p k x ∧
             total_value h' self = Ok x) ∧
  (∀ value, (∃ h', set_visit_count h self value = Ok h') ↔
        fits_int64 value = true ∧ fits_int64 a = true ∧
        ∃ k, denotes (length counts) a k) ∧
  (∀ value, (∃ h', set_total_value h self value = Ok h') ↔
        (∃ x, to_float32 value = Ok x) ∧ fits_int64 a = true ∧
        ∃ k, denotes (length totals) a k).
Proof.
  intros Hself Hparent Hp counts totals a. subst counts totals a.
  split; [|split; [|split; [|split; [|split]]]].
  - intros n. rewrite (visit_count_eq _ _ _ _ _ Hself Hparent Hp), getitem_Ok.
    split; intros (k & Hk & Hn); exists k.
    + apply denotes_normalize_index in Hk as [Hfit Hk]. auto.
    + destruct Hn as [Hd Hn]. split; [|exact Hn].
      apply denotes_normalize_index. auto.
  - intros v. rewrite (total_value_eq _ _ _ _ _ Hself Hparent Hp), getitem_Ok.
    split; intros (k & Hk & Hn); exists k.
    + apply denotes_normalize_index in Hk as [Hfit Hk]. auto.
    + destruct Hn as [Hd Hn]. split; [|exact Hn].
      apply denotes_normalize_index. auto.
  - intros value h' Hset.
    destruct (set_visit_count_Ok _ _ _ _ _ _ _ Hself Hparent Hp Hset)
      as (k & Hk & Hfit & ->).
    pose proof Hk as Hk'. apply denotes_normalize_index in Hk' as [Hfa Hden].
    exists k. split; [exact Hden|]. split.
    + split; [now apply update_same_but_node|].
      eexists pn, _. split; [exact Hp|].
      split; [eapply lookup_parent_after_update; eauto|].
      split; [apply with_child_visit_count_others|].
      split; [apply Hden|].
      split; [apply insert_same_but_cell|].
      simpl. apply list_lookup_insert_eq, Hden.
    + destruct (self_after_update h self p nd pn Hself Hparent Hp
                  (with_child_visit_count pn (<[k:=value]> (_child_visit_count pn))))
        as (nd' & Hself' & Hparent' & Hact'); [reflexivity..|].
      rewrite (visit_count_eq _ _ _ _ _ Hself' Hparent'
                 (lookup_parent_after_update h p pn Hp _)).
      apply getitem_Ok. exists k. simpl. rewrite length_insert, Hact'.
      split; [exact Hk|]. apply list_lookup_insert_eq, Hden.
  - intros value h' Hset.
    destruct (set_total_value_Ok _ _ _ _ _ _ _ Hself Hparent Hp Hset)
      as (k & x & Hx & Hk & ->).
    pose proof Hk as Hk'. apply denotes_normalize_index in Hk' as [Hfa Hden].
    exists k, x. split; [exact Hx|]. split; [exact Hden|]. split.
    + split; [now apply update_same_but_node|].
      eexists pn, _. split; [exact Hp|].
      split; [eapply lookup_parent_after_update; eauto|].
      split; [apply with_child_total_value_others|].
      split; [apply Hden|].
      split; [apply insert_same_but_cell|].
      simpl. apply list_lookup_insert_eq, Hden.
    + destruct (self_after_update h self p nd pn Hself Hparent Hp
                  (with_child_total_value pn (<[k:=x]> (_child_total_value pn))))
        as (nd' & Hself' & Hparent' & Hact'); [reflexivity..|].
      rewrite (total_value_eq _ _ _ _ _ Hself' Hparent'
                 (lookup_parent_after_update h p pn Hp _)).
      apply getitem_Ok. exists k. simpl. rewrite length_insert, Hact'.
      split; [exact Hk|]. apply list_lookup_insert_eq, Hden.
  - intros value. split.
    + intros [h' Hset].
      destruct (set_visit_count_Ok _ _ _ _ _ _ _ Hself Hparent Hp Hset)
        as (k & Hk & Hfit & _).
      apply denotes_normalize_index in Hk as [Hfa Hden]. eauto.
    + intros (Hfv & Hfa & k & Hden).
      rewrite (set_visit_count_eq _ _ _ _ _ Hself Hparent Hp).
      unfold setitem_long, setitem. rewrite Hfv.
      rewrite (proj2 (denotes_normalize_index _ _ k) (conj Hfa Hden)).
      cbn [mbind result_bind]. eauto.
  - intros value. split.
    + intros [h' Hset].
      destruct (set_total_value_Ok _ _ _ _ _ _ _ Hself Hparent Hp Hset)
        as (k & x & Hx & Hk & _).
      apply denotes_normalize_index in Hk as [Hfa Hden]. eauto.
    + intros ((x & Hx) & Hfa & k & Hden).
      rewrite (set_total_value_eq _ _ _ _ _ Hself Hparent Hp).
      unfold setitem_float, setitem. rewrite Hx. cbn [mbind result_bind].
      rewrite (proj2 (denotes_normalize_index _ _ k) (conj Hfa Hden)).
      cbn [mbind result_bind]. eauto.
Qed.

(** C4.  On a node without a parent, reading and writing [visit_count]
    raise: the attribute is looked up on [None], which is an
    [AttributeError].  No value is returned and no heap is produced. *)
Theorem root_visit_count_raises (h : heap) (self : addr) (nd : node) (value : Z) :
  h !! self = Some nd → parent nd = None →
  visit_count h self = Raise (NoneType_has_no "_child_visit_count") ∧
  set_visit_count h self value = Raise (NoneType_has_no "_child_visit_count").
Proof.
  intros Hself Hroot. unfold visit_count, set_visit_count.
  rewrite (deref_Some _ _ _ Hself). simpl.
  now rewrite (parent_node_None _ _ _ Hroot).
Qed.

Lemma wrap_int64_small (z : Z) :
  int64_min ≤ z ≤ int64_max → wrap_int64 z = z.
Proof.
  unfold int64_min, int64_max, wrap_int64. intros Hz.
  rewrite Z.mod_small by lia. lia.
Qed.

Lemma f32_div_by_number (q d : Q) :
  (1 <= d)%Q → f32_div (Finite q) (Finite d) = round_f32 (q / d).
Proof.
  intros Hd. unfold f32_div.
  destruct (Z.eqb_spec (Qnum d) 0) as [Hz|]; [|reflexivity].
  unfold Qle in Hd. cbn [Qnum Qden] in Hd. lia.
Qed.

Lemma visit_count_Ok_node (h : heap) (self : addr) (n : Z) :
  visit_count h self = Ok n →
  ∃ nd p pn, h !! self = Some nd ∧ parent nd = Some p ∧ h !! p = Some pn.
Proof.
  unfold visit_count, deref, parent_node, deref.
  destruct (h !! self) as [nd|] eqn:Hself; [|discriminate]. simpl.
  destruct (parent nd) as [p|] eqn:Hparent; [|discriminate].
  destruct (h !! p) as [pn|] eqn:Hp; [|discriminate].
  intros _. eauto 6.
Qed.

(** C2, amended.  When [visit_count] is [n] and [total_value] is [v],
    with [0 <= n < 2^63 - 1], [action_value] is the [float32] quotient of
    [v] by [1 + n]: the sum is cast to [float32], which gives a number
    [d >= 1] ([d = 1] for [n = 0]), so that nothing is divided by zero,
    and [v / d] is rounded to [float32].  The value is recomputed from the
    two cells at each use: after [visit_count] is set to [n'],
    [action_value] is the [float32] quotient of [v] by [1 + n']. *)
Theorem action_value_is_quotient (h : heap) (self : addr) (n : Z) (v : fval) :
  visit_count h self = Ok n → total_value h self = Ok v →
  0 ≤ n < int64_max →
  ∃ d, f32_of_int (1 + n) = Finite d ∧ (1 <= d)%Q ∧
       (n = 0 → d = 1%Q) ∧
       action_value h self = Ok (f32_div v (Finite d)) ∧
       (∀ q, v = Finite q → action_value h self = Ok (round_f32 (q / d))) ∧
       (∀ n' h', 0 ≤ n' < int64_max → set_visit_count h self n' = Ok h' →
          action_value h' self = Ok (f32_div v (f32_of_int (1 + n')))).
Proof.
  intros Hn Hv Hrange.
  assert (Hwrap : ∀ m, 0 ≤ m < int64_max → wrap_int64 (1 + m) = 1 + m).
  { intros m Hm. unfold int64_max in Hm.
    apply wrap_int64_small. unfold int64_min, int64_max. lia. }
  destruct (f32_of_int_ge_1 (1 + n)) as (d & Hd & Hge);
    [unfold int64_max in Hrange; lia|].
  assert (Hvalue : action_value h self = Ok (f32_div v (Finite d))).
  { unfold action_value. rewrite Hv, Hn. cbn [mbind result_bind].
    unfold true_divide. now rewrite Hwrap, Hd. }
  exists d. split; [exact Hd|]. split; [exact Hge|]. split; [|split; [|split]].
  - intros ->. change (f32_of_int (1 + 0)) with (Finite 1) in Hd.
    now injection Hd as <-.
  - exact Hvalue.
  - intros q ->. now rewrite Hvalue, f32_div_by_number.
  - intros n' h' Hn' Hset.
    destruct (visit_count_Ok_node _ _ _ Hn) as (nd & p & pn & Hself & Hparent & Hp).
    destruct (set_visit_count_Ok _ _ _ _ _ _ _ Hself Hparent Hp Hset)
      as (k & Hk & Hfit & ->).
    pose proof Hk as Hlt. apply normalize_index_Ok in Hlt as (_ & Hlt & _).
    destruct (self_after_update h self p nd pn Hself Hparent Hp
                (with_child_visit_count pn (<[k:=n']> (_child_visit_count pn))))
      as (nd' & Hself' & Hparent' & Hact'); [reflexivity..|].
    rewrite (action_value_eq _ _ _ _ _ Hself' Hparent'
               (lookup_parent_after_update h p pn Hp _)).
    rewrite (total_value_eq _ _ _ _ _ Hself Hparent Hp) in Hv.
    simpl. rewrite Hact', Hv. simpl.
    assert (Hget : getitem (<[k:=n']> (_child_visit_count pn)) (prev_action nd)
                   = Ok n').
    { apply getitem_Ok. exists k. rewrite length_insert. split; [exact Hk|].
      now apply list_lookup_insert_eq. }
    rewrite Hget. simpl. unfold true_divide. now rewrite Hwrap.
Qed.


Lemma zeros_Ok {A : Type} (can_allocate : Z → bool) (bytes : Z) (zero : A)
    (n : Z) :
  0 ≤ n ≤ int64_max → (0 < n → can_allocate (bytes * n) = true) →
  zeros can_allocate bytes zero n = Ok (replicate (Z.to_nat n) zero).
Proof.
  intros Hn Halloc. unfold zeros.
  assert (Hfit : fits_int64 n = true).
  { unfold fits_int64, int64_min. apply andb_true_iff.
    split; apply Z.leb_le; lia. }
  rewrite Hfit. cbn [negb].
  destruct (Z.ltb_spec n 0); [lia|].
  destruct (Z.ltb_spec 0 n); [|reflexivity].
  now rewrite Halloc.
Qed.

Lemma zeros_Ok_inv {A : Type} (can_allocate : Z → bool) (bytes : Z) (zero : A)
    (n : Z) (t : list A) :
  zeros can_allocate bytes zero n = Ok t →
  0 ≤ n ≤ int64_max ∧ (0 < n → can_allocate (bytes * n) = true) ∧
  t = replicate (Z.to_nat n) zero.
Proof.
  unfold zeros. destruct (fits_int64 n) eqn:Hfit; [|discriminate]. cbn [negb].
  destruct (Z.ltb_spec n 0); [discriminate|].
  apply andb_true_iff in Hfit as [_ Hhi]. apply Z.leb_le in Hhi.
  destruct (Z.ltb_spec 0 n).
  - destruct (can_allocate (bytes * n)); [|discriminate].
    intros [= <-]. auto.
  - intros [= <-]. split; [lia|]. split; [lia|reflexivity].
Qed.

Lemma init_Ok (can_allocate : Z → bool) (h : heap) (st : TensorDict) (n : Z)
    (e : EnvBase) (par : option addr) (a : Z) (c : Q) :
  constructible can_allocate n →
  __init__ can_allocate h st n e par a c =
  Ok (length h,
      h ++ [ @mk_MCTSNode TensorDict EnvBase st n e par ∅ a false 0
               (replicate (Z.to_nat n) 0) (replicate (Z.to_nat n) (Finite 0))
               (replicate (Z.to_nat n) (Finite 0))
               (replicate (Z.to_nat n) (Finite 0)) ]).
Proof.
  intros [Hn Halloc]. unfold __init__.
  rewrite (zeros_Ok can_allocate 8) by (auto; intros; now apply Halloc).
  rewrite !(zeros_Ok can_allocate 4) by (auto; intros; now apply Halloc).
  reflexivity.
Qed.

(** C7, amended.  For an action count [0 <= n_actions < 2^63] whose
    arrays the allocator can provide, the constructor returns a new
    object whose expansion flag is false, whose virtual-loss count is 0,
    whose four arrays hold [n_actions] zeros each (integer zeros for the
    visit counts), whose child mapping is empty, and which stores [state],
    [n_actions], [env], [parent] and [prev_action] as given. *)
Theorem init_initializes (can_allocate : Z → bool) (h : heap)
    (st : TensorDict) (n : Z) (e : EnvBase) (par : option addr) (a : Z)
    (c : Q) :
  constructible can_allocate n →
  ∃ nd : node,
    __init__ can_allocate h st n e par a c = Ok (length h, h ++ [nd]) ∧
    _is_expanded nd = false ∧ _n_vlosses nd = 0 ∧
    _child_visit_count nd = replicate (Z.to_nat n) 0 ∧
    _child_total_value nd = replicate (Z.to_nat n) (Finite 0) ∧
    _original_prior nd = replicate (Z.to_nat n) (Finite 0) ∧
    _child_prior nd = replicate (Z.to_nat n) (Finite 0) ∧
    Z.of_nat (length (_child_visit_count nd)) = n ∧
    Z.of_nat (length (_child_total_value nd)) = n ∧
    Z.of_nat (length (_original_prior nd)) = n ∧
    Z.of_nat (length (_child_prior nd)) = n ∧
    Forall (fun x => fits_int64 x = true) (_child_visit_count nd) ∧
    children nd = ∅ ∧
    state nd = st ∧ n_actions nd = n ∧ env nd = e ∧ parent nd = par ∧
    prev_action nd = a.
Proof.
  intros Hn. eexists. split; [now apply init_Ok|]. simpl.
  rewrite !length_replicate. destruct Hn as [Hn _].
  repeat split; try reflexivity; try lia.
  apply Forall_replicate. reflexivity.
Qed.

(** C10, amended.  For an action count [0 <= n_actions < 2^63] whose
    arrays the allocator can provide, the constructor validates nothing
    and returns for every [parent] and [prev_action]: [parent] may be
    [None], [prev_action] may be any integer, [n_actions] is not compared
    with the parent.  A missing parent is reported by the first use of
    [visit_count], [total_value] or [action_value], as an
    [AttributeError]; a [prev_action] outside [-n, n) for a parent with
    [n] cells, with [-2^63 < prev_action < 2^63], is reported there as an
    [IndexError]. *)
Theorem init_validates_nothing (can_allocate : Z → bool) (h : heap)
    (st : TensorDict) (n : Z) (e : EnvBase) (par : option addr) (a : Z)
    (c : Q) :
  constructible can_allocate n →
  ∃ (nd : node) (h' : heap),
    __init__ can_allocate h st n e par a c = Ok (length h, h') ∧
    h' !! length h = Some nd ∧ parent nd = par ∧ prev_action nd = a ∧
    n_actions nd = n ∧
    (par = None →
       visit_count h' (length h) = Raise (NoneType_has_no "_child_visit_count") ∧
       total_value h' (length h) = Raise (NoneType_has_no "_child_total_value") ∧
       action_value h' (length h) = Raise (NoneType_has_no "_child_total_value")) ∧
    (∀ p pn, par = Some p → h !! p = Some pn → int64_min < a ≤ int64_max →
       let m := length (_child_visit_count pn) in
       length (_child_total_value pn) = m →
       (a < - Z.of_nat m ∨ Z.of_nat m ≤ a) →
       visit_count h' (length h) = Raise (IndexError a m) ∧
       total_value h' (length h) = Raise (IndexError a m) ∧
       action_value h' (length h) = Raise (IndexError a m)).
Proof.
  intros Hn. eexists _, _. split; [now apply init_Ok|].
  match goal with |- (h ++ [?x]) !! _ = _ ∧ _ => set (nd := x) end.
  assert (Hself : (h ++ [nd]) !! length h = Some nd).
  { rewrite lookup_app_r by lia. now rewrite Nat.sub_diag. }
  split; [exact Hself|]. split; [reflexivity|]. split; [reflexivity|].
  split; [reflexivity|]. split.
  - intros ->.
    unfold action_value, total_value, visit_count.
    rewrite (deref_Some _ _ _ Hself). simpl. auto.
  - intros p pn -> Hp Hrange m Hlen Hout.
    assert (Hfit : fits_int64 a = true).
    { unfold fits_int64. apply andb_true_iff. split; apply Z.leb_le; lia. }
    assert (Hp' : (h ++ [nd]) !! p = Some pn).
    { rewrite lookup_app_l; [exact Hp|]. eapply lookup_lt_Some; eauto. }
    unfold action_value.
    rewrite (total_value_eq _ _ _ _ _ Hself eq_refl Hp').
    rewrite (visit_count_eq _ _ _ _ _ Hself eq_refl Hp').
    simpl prev_action.
    rewrite (getitem_Raise (_child_visit_count pn) a (IndexError a m))
      by now apply normalize_index_outside.
    rewrite (getitem_Raise (_child_total_value pn) a (IndexError a m))
      by (rewrite Hlen; now apply normalize_index_outside).
    auto.
Qed.

End NodeClaims.

(** C6.  Evaluating [child_U] raises a [NameError] on every node, and so
    never returns a value: [c_PUCT], the first operand, is a parameter of
    [__init__] and is bound neither in the module nor in the builtins.
    Were it bound, the module [math] would be the next undefined name;
    were both bound, the visit total [self.N] would be a missing
    attribute. *)
Theorem child_U_raises_NameError (self : MCTS.addr) :
  MCTS.child_U self = Raise (NameError "c_PUCT") ∧
  (∀ v, MCTS.child_U self ≠ Ok v) ∧
  MCTS.child_U_in ("c_PUCT" :: MCTS.module_globals)%string self
    = Raise (NameError "math") ∧
  MCTS.child_U_in ("math" :: "c_PUCT" :: MCTS.module_globals)%string self
    = Raise (AttributeError "'_MCTSNode' object has no attribute 'N'").
Proof.
  assert (H : MCTS.child_U self = Raise (NameError "c_PUCT"))
    by (vm_compute; reflexivity).
  split; [exact H|]. split; [intros v; rewrite H; discriminate|].
  split; vm_compute; reflexivity.
Qed.

(** * The node on concrete trees *)

Section NodeExamples.

Import MCTS Examples.

Lemma tree_3 (a : Z) : tree 3 a = Ok (the_root, the_child, tree3 a).
Proof. reflexivity. Qed.

Lemma plenty_constructible (n : Z) :
  0 ≤ n ≤ int64_max → constructible plenty n.
Proof. intros Hn. split; [exact Hn|]. intros _. split; reflexivity. Qed.

(** C1 as stated fails on a node whose [prev_action] is no index of the
    parent's array, and for a value outside the [float32] range: the
    write raises, and no cell is mutated; the read raises as well. *)
Lemma failed_write_mutates_nothing :
  parent (child_of_root3 5) = Some the_root ∧
  set_visit_count (tree3 5) the_child 7 = Raise (IndexError 5 3%nat) ∧
  visit_count (tree3 5) the_child = Raise (IndexError 5 3%nat) ∧
  (¬ ∃ h', set_visit_count (tree3 5) the_child 7 = Ok h') ∧
  (¬ ∃ h', set_total_value (tree3 1) the_child
             (PyFloat (Finite (inject_Z (2 ^ 128)))) = Ok h').
Proof.
  split; [reflexivity|]. split; [reflexivity|]. split; [reflexivity|].
  split; intros [h' Hh']; discriminate Hh'.
Defined.

Lemma property_is_one_cell_of_parent_witness :
  ∃ h', set_visit_count (tree3 1) the_child 7 = Ok h' ∧
        visit_count h' the_child = Ok 7.
Proof.
  destruct (property_is_one_cell_of_parent (tree3 1) the_child the_root
              (child_of_root3 1) root3 eq_refl eq_refl eq_refl)
    as (_ & _ & Hwrite & _ & Hreturns & _).
  destruct (proj2 (Hreturns 7)) as [h' Hh'].
  { split; [reflexivity|]. split; [reflexivity|].
    exists 1%nat. unfold denotes. simpl. lia. }
  exists h'. split; [exact Hh'|].
  destruct (Hwrite 7 h' Hh') as (k & _ & _ & Hread). exact Hread.
Defined.

Lemma root_visit_count_raises_witness :
  visit_count (tree3 1) the_root = Raise (NoneType_has_no "_child_visit_count") ∧
  set_visit_count (tree3 1) the_root 7 = Raise (NoneType_has_no "_child_visit_count").
Proof.
  apply (root_visit_count_raises (tree3 1) 0%nat root3 7); reflexivity.
Defined.

(** C7 as stated fails for an action count of [2^63], which is no 64-bit
    size, and for a count whose arrays the allocator cannot provide: the
    constructor raises. *)
Lemma init_raises_on_large_n_actions :
  0 ≤ 2 ^ 63 ∧
  raises (__init__ (TensorDict := unit) (EnvBase := unit)
            plenty [] tt (2 ^ 63) tt None 0 c_PUCT) ∧
  raises (__init__ (TensorDict := unit) (EnvBase := unit)
            (fun bytes => bytes <? 2 ^ 40) [] tt (2 ^ 50) tt None 0 c_PUCT).
Proof.
  split; [discriminate|]. split; exact I.
Defined.

Lemma init_initializes_witness :
  ∃ nd : _MCTSNode unit unit,
    __init__ plenty [] tt 3 tt None 0 c_PUCT = Ok (0%nat, [nd]) ∧
    _child_visit_count nd = [0; 0; 0] ∧ children nd = ∅.
Proof.
  destruct (init_initializes (TensorDict := unit) (EnvBase := unit)
              plenty [] tt 3 tt None 0 c_PUCT) as (nd & Hinit & H);
    [apply plenty_constructible; unfold int64_max; lia|].
  exists nd. split; [exact Hinit|]. split; apply H.
Defined.

(** C2 as stated fails at ordinary inputs, where the quotient is rounded
    to [float32] (count 2 and total 1.0 give 11184811/33554432, not 1/3),
    and at the largest count, where [1 + visit_count] wraps to [-2^63]
    and the quotient changes sign. *)
Lemma action_value_rounds_and_wraps :
  (∃ h1 h2 q,
     set_visit_count (tree3 1) the_child 2 = Ok h1 ∧
     set_total_value h1 the_child (PyFloat (Finite 1)) = Ok h2 ∧
     visit_count h2 the_child = Ok 2 ∧ total_value h2 the_child = Ok (Finite 1) ∧
     action_value h2 the_child = Ok (Finite q) ∧
     q = (11184811 # 33554432)%Q ∧ ¬ (q == 1 / inject_Z (1 + 2))%Q) ∧
  (∃ h1 h2 q,
     set_visit_count (tree3 1) the_child int64_max = Ok h1 ∧
     set_total_value h1 the_child (PyFloat (Finite 1)) = Ok h2 ∧
     0 ≤ int64_max ∧
     visit_count h2 the_child = Ok int64_max ∧
     total_value h2 the_child = Ok (Finite 1) ∧
     action_value h2 the_child = Ok (Finite q) ∧
     ¬ (q == 1 / inject_Z (1 + int64_max))%Q ∧ (q < 0)%Q).
Proof.
  split.
  - eexists _, _, _.
    split; [reflexivity|]. split; [vm_compute; reflexivity|].
    split; [reflexivity|]. split; [reflexivity|].
    split; [vm_compute; reflexivity|]. split; [reflexivity|].
    intros H. vm_compute in H. discriminate.
  - eexists _, _, _.
    split; [reflexivity|]. split; [vm_compute; reflexivity|].
    split; [discriminate|]. split; [reflexivity|]. split; [reflexivity|].
    split; [vm_compute; reflexivity|].
    split; [|reflexivity]. intros H. vm_compute in H. discriminate.
Defined.

Lemma action_value_is_quotient_witness :
  ∃ h1 h2,
    set_visit_count (tree3 1) the_child 1 = Ok h1 ∧
    set_total_value h1 the_child (PyFloat (Finite 1)) = Ok h2 ∧
    action_value h2 the_child = Ok (Finite (1 # 2)).
Proof.
  eexists _, _. split; [reflexivity|]. split; [vm_compute; reflexivity|].
  match goal with
  | |- action_value ?h _ = _ =>
      destruct (action_value_is_quotient h the_child 1 (Finite 1))
        as (d & Hd & _ & _ & _ & Hq & _)
  end; [reflexivity|reflexivity|split; [lia|reflexivity]|].
  rewrite (Hq 1%Q eq_refl).
  change (f32_of_int (1 + 1)) with (Finite 2) in Hd. injection Hd as <-.
  reflexivity.
Defined.



(** C10 as stated fails for a negative [n_actions] and for one of
    [2^63]: no array of that size can be made and the constructor
    raises. *)
Lemma init_raises_on_bad_n_actions :
  __init__ (TensorDict := unit) (EnvBase := unit)
    plenty [] tt (-1) tt None 0 c_PUCT
    = Raise (RuntimeError "Trying to create tensor with negative dimension") ∧
  (¬ ∃ r, __init__ (TensorDict := unit) (EnvBase := unit)
            plenty [] tt (-1) tt None 0 c_PUCT = Ok r) ∧
  (0 ≤ 2 ^ 63 ∧
   ¬ ∃ r, __init__ (TensorDict := unit) (EnvBase := unit)
            plenty [] tt (2 ^ 63) tt None 0 c_PUCT = Ok r).
Proof.
  split; [reflexivity|]. split; [intros [r Hr]; discriminate Hr|].
  split; [discriminate|]. intros [r Hr]. discriminate Hr.
Defined.

Lemma init_validates_nothing_witness :
  ∃ h', __init__ plenty (tree3 1) tt 2 tt (Some 0%nat) 9 c_PUCT = Ok (2%nat, h') ∧
        visit_count h' 2%nat = Raise (IndexError 9 3%nat).
Proof.
  destruct (init_validates_nothing plenty (tree3 1) tt 2 tt (Some 0%nat) 9 c_PUCT)
    as (nd & h' & Hinit & _ & _ & _ & _ & _ & Hlate);
    [apply plenty_constructible; unfold int64_max; lia|].
  exists h'. split; [exact Hinit|].
  destruct (Hlate 0%nat root3 eq_refl eq_refl) as [Hget _];
    [unfold int64_min, int64_max; lia|reflexivity|simpl; lia|exact Hget].
Defined.

End NodeExamples.

(** * Properties of the pretraining loop *)

Section LoopFacts.

Import OnlineDT.

Context {World Batch Traj : Type} {C : Collaborators World Batch Traj}.

Local Open Scope Q_scope.

Lemma py_mod_Ok (a b : Z) : b ≠ 0%Z → py_mod a b = Ok (a `mod` b)%Z.
Proof. intros Hb. unfold py_mod. destruct (Z.eqb_spec b 0); [contradiction|reflexivity]. Qed.

Lemma py_mod_zero (a : Z) : py_mod a 0 = Raise ZeroDivisionError.
Proof. reflexivity. Qed.

Lemma py_truediv_Ok (a b : Q) : ¬ b == 0 → py_truediv a b = Ok (a / b).
Proof.
  intros Hb. unfold py_truediv.
  destruct (Qeq_bool b 0) eqn:Heq; [|reflexivity].
  apply Qeq_bool_iff in Heq. contradiction.
Qed.

Lemma pretrain_loop_app (cfg : Config) (l1 l2 : list nat) (s : Locals World Traj) :
  pretrain_loop cfg (l1 ++ l2) s =
  (s' ← pretrain_loop cfg l1 s; pretrain_loop cfg l2 s').
Proof.
  revert s. induction l1 as [|i l1 IH]; intros s; simpl; [reflexivity|].
  destruct (pretrain_step cfg i s) as [s1|e]; simpl; [apply IH|reflexivity].
Qed.

Ltac step_fields :=
  cbn [trace eval_td l0 r0 policy_grad world it_index it_loss it_backward
       it_step_grad it_rollout it_eval_reward it_logged it_shown_loss
       it_shown_l0 it_shown_reward it_shown_r0 fmap option_fmap option_map snd].

(** One iteration returns as soon as the interval and the reward scale
    are not zero and [eval_td] is assigned before it is read. *)
Lemma pretrain_step_Ok (cfg : Config) (i : nat) (s : Locals World Traj) :
  pretrain_log_interval cfg ≠ 0%Z → ¬ reward_scaling cfg == 0 →
  (is_Some (eval_td s) ∨ (Z.of_nat i `mod` pretrain_log_interval cfg)%Z = 0%Z) →
  ∃ s' it td, pretrain_step cfg i s = Ok s' ∧ step_post cfg i s s' it td.
Proof.
  intros Hint Hscale Htd. unfold pretrain_step, step_post, first_transformer_loss.
  destruct (sample (world s)) as [w1 data].
  rewrite (py_mod_Ok _ _ Hint). cbn [mbind result_bind].
  destruct (Z.eqb_spec (Z.of_nat i `mod` pretrain_log_interval cfg) 0) as [Hr|Hr].
  - destruct (rollout _ _) as [w5 td] eqn:Hroll.
    destruct (r0 s) as [x|];
      cbn [from_option fst snd mbind result_bind load_local];
      rewrite !(py_truediv_Ok _ _ Hscale); cbn [mbind result_bind];
      (eexists _, _, td; split; [reflexivity|]; step_fields;
       repeat match goal with |- _ ∧ _ => split end;
       try reflexivity; try (left; split; [assumption|reflexivity]);
       try (now apply py_truediv_Ok);
       intros Hlog; step_fields; rewrite Hlog;
       first [ reflexivity
             | apply elem_of_app; right; apply list_elem_of_singleton; reflexivity ]).
  - destruct Htd as [[td Htd]|Habs]; [|contradiction].
    rewrite Htd.
    destruct (r0 s) as [x|];
      cbn [from_option fst snd mbind result_bind load_local];
      rewrite !(py_truediv_Ok _ _ Hscale); cbn [mbind result_bind];
      (eexists _, _, td; split; [reflexivity|]; step_fields;
       repeat match goal with |- _ ∧ _ => split end;
       try reflexivity; try (right; split; [assumption|split; reflexivity]);
       try (now apply py_truediv_Ok);
       intros Hlog; step_fields; rewrite Hlog;
       first [ reflexivity
             | apply elem_of_app; right; apply list_elem_of_singleton; reflexivity ]).
Qed.

Lemma latest_rollout_app (tr : list (Iteration Traj)) (x : Iteration Traj)
    (i j : nat) :
  (i < length tr)%nat → latest_rollout tr i j → latest_rollout (tr ++ [x]) i j.
Proof.
  intros Hi (Hj & (itj & Hitj & Hroll) & Hnone).
  split; [exact Hj|]. split.
  - exists itj. split; [|exact Hroll]. rewrite lookup_app_l by lia. exact Hitj.
  - intros m itm Hm Hlook. rewrite lookup_app_l in Hlook by lia. eauto.
Qed.

Lemma iteration_ok_app (cfg : Config) (it0 x it : Iteration Traj)
    (tr : list (Iteration Traj)) (i : nat) :
  (i < length tr)%nat →
  iteration_ok cfg it0 tr i it → iteration_ok cfg it0 (tr ++ [x]) i it.
Proof.
  intros Hi (H1 & H2 & H3 & H4 & H5 & H6 & H7 & H8 & j & itj & td & Hl & Hj & H9).
  repeat (split; [assumption|]).
  exists j, itj, td. split; [now apply latest_rollout_app|].
  split; [|exact H9].
  rewrite lookup_app_l; [exact Hj|]. destruct Hl as [Hle _]. lia.
Qed.

(** The first iteration establishes the invariant. *)
Lemma first_iteration (cfg : Config) (w : World) :
  pretrain_log_interval cfg ≠ 0%Z → ¬ reward_scaling cfg == 0 →
  ∃ s it0, pretrain_step cfg 0 (initially w) = Ok s ∧
           loop_inv cfg it0 1 s ∧
           it_index it0 = 0%nat ∧
           it_loss it0 = first_transformer_loss w.
Proof.
  intros Hint Hscale.
  assert (Hzero : (Z.of_nat 0 `mod` pretrain_log_interval cfg)%Z = 0%Z)
    by apply Z.mod_0_l, Hint.
  destruct (pretrain_step_Ok cfg 0 (initially w) Hint Hscale (or_intror Hzero))
    as (s & it & td & Hstep & Htr & Htd & Hl0 & Hr0 & _ & Hidx & Hroll & Hdiv
        & Hsr & Hsl & Hsl0 & Hsr0 & Hloss & Hlog & Hnolog & _).
  destruct Hroll as [[_ Hroll]|[Habs _]]; [|contradiction].
  simpl in Htr, Hsl0, Hsr0, Hloss.
  assert (Hlatest : latest_rollout (trace s) 0 0).
  { split; [lia|]. split.
    - exists it. rewrite Htr, Hroll. split; [reflexivity|eauto].
    - intros m itm Hm. lia. }
  exists s, it. split; [exact Hstep|]. split; [|split; assumption].
  split; [now rewrite Htr|]. split; [now rewrite Htr|].
  split; [now rewrite Hl0, Hsl0|]. split; [now rewrite Hr0, Hsr0|]. split.
  - exists 0%nat, it, td. rewrite Htr at 2. auto.
  - intros i it' Hlook. rewrite Htr in Hlook.
    destruct i as [|i]; [|discriminate]. injection Hlook as <-.
    split; [exact Hidx|]. split; [rewrite Hroll; split; eauto|].
    repeat (split; [assumption|]).
    exists 0%nat, it, td. rewrite Htr at 2. auto.
Qed.

(** Every further iteration preserves it. *)
Lemma next_iteration (cfg : Config) (it0 : Iteration Traj) (n : nat)
    (s : Locals World Traj) :
  pretrain_log_interval cfg ≠ 0%Z → ¬ reward_scaling cfg == 0 →
  (1 ≤ n)%nat → loop_inv cfg it0 n s →
  ∃ s', pretrain_step cfg n s = Ok s' ∧ loop_inv cfg it0 (S n) s'.
Proof.
  intros Hint Hscale Hn (Hlen & H0 & HL0 & HR0 & Hlast & Hall).
  destruct Hlast as (j & itj & td & Hlatest & Hj & Hjroll & Htd & Hjdiv).
  destruct (pretrain_step_Ok cfg n s Hint Hscale) as
    (s' & it & td' & Hstep & Htr & Htd' & Hl0 & Hr0 & _ & Hidx & Hroll & Hdiv
     & Hsr & Hsl & Hsl0 & Hsr0 & _ & Hlog & Hnolog & _).
  { left. rewrite Htd. eauto. }
  rewrite HL0 in Hsl0. rewrite HR0 in Hsr0. simpl in Hsl0, Hsr0.
  assert (Hnew : (trace s ++ [it]) !! n = Some it).
  { rewrite lookup_app_r by lia. now rewrite Hlen, Nat.sub_diag. }
  assert (Hlast' : ∃ j' itj' ,
            latest_rollout (trace s ++ [it]) n j' ∧
            (trace s ++ [it]) !! j' = Some itj' ∧
            it_rollout itj' = Some td' ∧
            py_truediv (mean_total_reward td') (reward_scaling cfg)
              = Ok (it_eval_reward itj') ∧
            it_eval_reward it = it_eval_reward itj').
  { destruct Hroll as [[Hmod Hran]|(Hmod & Hnot & Hsame)].
    - exists n, it. split; [|auto].
      split; [lia|]. split; [exists it; rewrite Hran; eauto|].
      intros m itm Hm. lia.
    - assert (td' = td) as -> by congruence.
      assert (Hjn : (j < n)%nat) by (destruct Hlatest; lia).
      exists j, itj. split.
      + destruct Hlatest as (Hle & Hsome & Hnone).
        split; [lia|]. split.
        * destruct Hsome as (x & Hx & Hxr). exists x.
          rewrite lookup_app_l by lia. auto.
        * intros m itm Hm Hlook. destruct (decide (m = n)) as [->|Hne].
          -- rewrite Hnew in Hlook. now injection Hlook as <-.
          -- rewrite lookup_app_l in Hlook by lia. apply (Hnone m); [lia|exact Hlook].
      + rewrite lookup_app_l by lia.
        split; [exact Hj|]. split; [exact Hjroll|]. split; [exact Hjdiv|].
        congruence. }
  destruct Hlast' as (j' & itj' & Hlatest' & Hj' & Hjroll' & Hjdiv' & Heq).
  exists s'. split; [exact Hstep|].
  split; [rewrite Htr, length_app; simpl; lia|].
  split; [rewrite Htr, lookup_app_l by lia; exact H0|].
  split; [now rewrite Hl0, Hsl0|]. split; [now rewrite Hr0, Hsr0|]. split.
  - exists j', itj', td'. rewrite Htr. replace (S n - 1)%nat with n by lia. auto.
  - intros i it' Hlook. rewrite Htr in Hlook |- *.
    destruct (decide (i = n)) as [->|Hne].
    + rewrite Hnew in Hlook. injection Hlook as <-.
      split; [exact Hidx|]. split.
      { destruct Hroll as [[Hmod Hran]|(Hmod & Hnot & _)].
        - rewrite Hran. split; eauto.
        - rewrite Hnot. split; [intros [x Hx]; discriminate|contradiction]. }
      repeat (split; [assumption|]).
      exists j', itj', td'. auto.
    + assert (Hi : (i < length (trace s))%nat).
      { apply lookup_lt_Some in Hlook. rewrite length_app in Hlook.
        simpl in Hlook. lia. }
      rewrite lookup_app_l in Hlook by exact Hi.
      apply iteration_ok_app; [exact Hi|]. now apply Hall.
Qed.

(** The loop returns after any number [n >= 1] of iterations, in a state
    that satisfies the invariant; the first entry of the trace is the
    same for every [n]. *)
Lemma pretrain_loop_inv (cfg : Config) (w : World) :
  pretrain_log_interval cfg ≠ 0%Z → ¬ reward_scaling cfg == 0 →
  ∃ it0, it_index it0 = 0%nat ∧ it_loss it0 = first_transformer_loss w ∧
    ∀ n, (1 ≤ n)%nat →
      ∃ s, pretrain_loop cfg (seq 0 n) (initially w) = Ok s ∧
           loop_inv cfg it0 n s.
Proof.
  intros Hint Hscale.
  destruct (first_iteration cfg w Hint Hscale) as (s1 & it0 & Hs1 & Hinv1 & Hidx & Hloss).
  exists it0. split; [exact Hidx|]. split; [exact Hloss|].
  intros n Hn. induction n as [|n IH]; [lia|].
  destruct (decide (n = 0)%nat) as [->|Hpos].
  - exists s1. simpl. rewrite Hs1. auto.
  - destruct IH as (s & Hrun & Hinv); [lia|].
    destruct (next_iteration cfg it0 n s Hint Hscale ltac:(lia) Hinv)
      as (s' & Hstep & Hinv').
    exists s'. split; [|exact Hinv'].
    rewrite seq_S, pretrain_loop_app, Hrun. simpl. now rewrite Hstep.
Qed.

End LoopFacts.

Section LoopClaims.

Import OnlineDT.

Context {World Batch Traj : Type} {C : Collaborators World Batch Traj}.

Local Open Scope Q_scope.

(** C8.  With a log interval and a reward scale that are not zero, the
    loop completes any number [n >= 1] of iterations, and there is one
    record [it0] of iteration 0, the same for every [n], such that: its
    loss is the transformer loss computed from the first batch, its
    reward is the one computed from the rollout of iteration 0, and after
    [n] iterations [l0] and [r0] still hold these two values, which are
    the init values shown by every iteration. *)
Theorem baseline_is_iteration_0 (cfg : Config) (w : World) :
  pretrain_log_interval cfg ≠ 0%Z → ¬ reward_scaling cfg == 0 →
  ∃ it0 td0,
    it_index it0 = 0%nat ∧
    it_loss it0 = first_transformer_loss w ∧
    it_rollout it0 = Some td0 ∧
    py_truediv (mean_total_reward td0) (reward_scaling cfg)
      = Ok (it_eval_reward it0) ∧
    ∀ n, (1 ≤ n)%nat →
      ∃ s, pretrain_loop cfg (seq 0 n) (initially w) = Ok s ∧
           (pretrain_gradient_steps cfg = Z.of_nat n → main cfg w = Ok s) ∧
           length (trace s) = n ∧
           trace s !! 0%nat = Some it0 ∧
           l0 s = Some (it_loss it0) ∧
           r0 s = Some (it_eval_reward it0) ∧
           ∀ i it, trace s !! i = Some it →
             it_index it = i ∧
             it_shown_l0 it = it_loss it0 ∧
             it_shown_r0 it = it_eval_reward it0.
Proof.
  intros Hint Hscale.
  destruct (pretrain_loop_inv cfg w Hint Hscale) as (it0 & Hidx & Hloss & Hrun).
  destruct (Hrun 1%nat (le_n 1)) as (s1 & _ & _ & H0 & _ & _ & _ & Hall).
  destruct (Hall 0%nat it0 H0)
    as (_ & _ & _ & _ & _ & _ & _ & _ & j & itj & td & Hlatest & Hj & Hroll & Hdiv & _).
  assert (j = 0)%nat as -> by (destruct Hlatest; lia).
  assert (itj = it0) as -> by congruence.
  exists it0, td. repeat (split; [assumption|]).
  intros n Hn. destruct (Hrun n Hn) as (s & Hs & Hlen & Hfirst & Hl0 & Hr0 & _ & Hall').
  exists s. split; [exact Hs|]. split.
  { intros Hsteps. unfold main. rewrite Hsteps, Nat2Z.id. exact Hs. }
  repeat (split; [assumption|]).
  intros i it Hit. destruct (Hall' i it Hit) as (H1 & _ & H3 & H4 & _). auto.
Qed.

(** C9, amended.  With a log interval and a reward scale that are not
    zero, in a run of [n >= 1] iterations: the rollout runs in iteration
    [i] exactly when [i % pretrain_log_interval == 0], hence in iteration
    0; every iteration computes and shows an evaluation reward, and logs
    it when there is a logger; that reward is computed from the
    trajectory of the latest iteration [j <= i] in which a rollout ran,
    and equals the reward of iteration [j]. *)
Theorem evaluation_reward_is_of_latest_rollout (cfg : Config) (w : World) (n : nat) :
  pretrain_log_interval cfg ≠ 0%Z → ¬ reward_scaling cfg == 0 → (1 ≤ n)%nat →
  ∃ s, pretrain_loop cfg (seq 0 n) (initially w) = Ok s ∧
       (pretrain_gradient_steps cfg = Z.of_nat n → main cfg w = Ok s) ∧
       ∀ i, (i < n)%nat →
         ∃ it, trace s !! i = Some it ∧
           it_index it = i ∧
           (is_Some (it_rollout it) ↔
            (Z.of_nat i `mod` pretrain_log_interval cfg)%Z = 0%Z) ∧
           (i = 0%nat → is_Some (it_rollout it)) ∧
           it_shown_reward it = it_eval_reward it ∧
           (logger_is_not_None = true →
              ("evaluation reward"%string, it_eval_reward it, i) ∈ it_logged it) ∧
           ∃ j itj td,
             latest_rollout (trace s) i j ∧ trace s !! j = Some itj ∧
             it_rollout itj = Some td ∧
             py_truediv (mean_total_reward td) (reward_scaling cfg)
               = Ok (it_eval_reward it) ∧
             it_eval_reward it = it_eval_reward itj.
Proof.
  intros Hint Hscale Hn.
  destruct (pretrain_loop_inv cfg w Hint Hscale) as (it0 & _ & _ & Hrun).
  destruct (Hrun n Hn) as (s & Hs & Hlen & _ & _ & _ & _ & Hall).
  exists s. split; [exact Hs|]. split.
  { intros Hsteps. unfold main. rewrite Hsteps, Nat2Z.id. exact Hs. }
  intros i Hi. destruct (lookup_lt_is_Some_2 (trace s) i) as [it Hit]; [lia|].
  exists it. split; [exact Hit|].
  destruct (Hall i it Hit) as (H1 & H2 & _ & _ & _ & H6 & H7 & _ & H9).
  split; [exact H1|]. split; [exact H2|]. split.
  { intros ->. apply H2. now apply Z.mod_0_l. }
  auto.
Qed.

(** What [transformer_optim.step()] reads, in an iteration that returns. *)
Lemma pretrain_step_grad (cfg : Config) (i : nat) (s s' : Locals World Traj) :
  pretrain_step cfg i s = Ok s' →
  ∃ it, trace s' = trace s ++ [it] ∧ policy_grad s' = it_step_grad it ∧
        it_step_grad it =
          backward (clip_grad_norm_ grad_norm (clip_grad cfg)
                      (zero_grad set_to_none (policy_grad s)))
                   (it_backward it).
Proof.
  unfold pretrain_step. destruct (sample (world s)) as [w1 data].
  destruct (py_mod _ _) as [r|e]; [|discriminate]. cbn [mbind result_bind].
  destruct (match r0 s with Some x => _ | None => _ end) as [x|e]; [|discriminate].
  cbn [mbind result_bind].
  destruct (load_local _ _) as [t|e]; [|discriminate]. cbn [mbind result_bind].
  destruct (py_truediv _ _) as [y|e]; [|discriminate]. cbn [mbind result_bind].
  intros [= <-]. eexists. split; [reflexivity|]. split; reflexivity.
Qed.

(** When [zero_grad()] resets the gradients to [None], the call of
    [clip_grad_norm_] finds no gradient to scale: in every iteration the
    optimizer reads what [backward()] produced, whatever [clip_grad] is. *)
Lemma clip_grad_norm_sees_no_gradient (cfg : Config) (indices : list nat)
    (s s' : Locals World Traj) :
  set_to_none = true →
  pretrain_loop cfg indices s = Ok s' →
  Forall (fun it => it_step_grad it = Some (it_backward it)) (trace s) →
  Forall (fun it => it_step_grad it = Some (it_backward it)) (trace s').
Proof.
  intros Hnone. revert s. induction indices as [|i rest IH]; intros s; simpl.
  - now intros [= <-].
  - destruct (pretrain_step cfg i s) as [s1|e] eqn:Hstep; [|discriminate].
    cbn [mbind result_bind]. intros Hrest Hall. apply (IH s1 Hrest).
    destruct (pretrain_step_grad _ _ _ _ Hstep) as (it & -> & _ & Hg).
    apply Forall_app. split; [exact Hall|].
    constructor; [|constructor]. rewrite Hg, Hnone. reflexivity.
Qed.

End LoopClaims.

(** * The loop on a concrete run *)

Section LoopExamples.

Import OnlineDT Examples.

Local Open Scope Q_scope.

Lemma baseline_is_iteration_0_witness :
  ∃ s it0,
    main (C := toy true true) toy_cfg 0%nat = Ok s ∧
    trace s !! 0%nat = Some it0 ∧
    l0 s = Some (it_loss it0) ∧ r0 s = Some (it_eval_reward it0) ∧
    Forall (fun it => it_shown_l0 it = it_loss it0 ∧
                      it_shown_r0 it = it_eval_reward it0) (trace s).
Proof.
  destruct (baseline_is_iteration_0 (C := toy true true) toy_cfg 0%nat)
    as (it0 & td0 & _ & _ & _ & _ & Hrun);
    [simpl; lia|intros H; vm_compute in H; discriminate H|].
  destruct (Hrun 3%nat) as (s & _ & Hmain & _ & H0 & Hl0 & Hr0 & Hall); [lia|].
  exists s, it0. split; [now apply Hmain|]. repeat (split; [assumption|]).
  apply Forall_lookup. intros i it Hit. now destruct (Hall i it Hit) as (_ & ? & ?).
Defined.

Lemma evaluation_reward_is_of_latest_rollout_witness :
  ∃ s it0 it1,
    main (C := toy true true) toy_cfg 0%nat = Ok s ∧
    trace s !! 0%nat = Some it0 ∧ trace s !! 1%nat = Some it1 ∧
    is_Some (it_rollout it0) ∧ it_rollout it1 = None ∧
    it_eval_reward it1 = it_eval_reward it0.
Proof.
  destruct (evaluation_reward_is_of_latest_rollout (C := toy true true)
              toy_cfg 0%nat 3) as (s & _ & Hmain & Hall);
    [simpl; lia|intros H; vm_compute in H; discriminate H|lia|].
  destruct (Hall 0%nat) as (it0 & H0 & _ & _ & Hran0 & _); [lia|].
  destruct (Hall 1%nat) as (it1 & H1 & _ & Hran1 & _ & _ & _ & j & itj & td
                            & Hlatest & Hj & _ & _ & Heq); [lia|].
  assert (Hnot : it_rollout it1 = None).
  { destruct (it_rollout it1) eqn:Hr; [|reflexivity].
    assert (Habs : (Z.of_nat 1 `mod` pretrain_log_interval toy_cfg)%Z = 0%Z)
      by (apply Hran1; eauto).
    discriminate Habs. }
  assert (j = 0)%nat as ->.
  { destruct Hlatest as (Hle & (x & Hx & Hsome) & _).
    destruct (decide (j = 1)%nat) as [->|]; [|lia].
    rewrite H1 in Hx. injection Hx as <-. rewrite Hnot in Hsome.
    destruct Hsome as [? Hsome]. discriminate Hsome. }
  assert (itj = it0) as -> by congruence.
  exists s, it0, it1. split; [now apply Hmain|]. auto 6.
Defined.

(** C9 as stated fails without a logger: iteration 0 computes and shows
    the evaluation reward, and logs nothing. *)
Lemma no_logger_nothing_logged :
  ∃ s it,
    main (C := toy true false) toy_cfg 0%nat = Ok s ∧
    trace s !! 0%nat = Some it ∧
    it_shown_reward it = it_eval_reward it ∧
    it_logged it = [] ∧
    ("evaluation reward"%string, it_eval_reward it, 0%nat) ∉ it_logged it.
Proof.
  eexists _, _. split; [vm_compute; reflexivity|].
  split; [reflexivity|]. split; [reflexivity|]. split; [reflexivity|].
  apply not_elem_of_nil.
Defined.

(** C3 fails on the code.  The policy has one parameter, every backward
    pass produces the gradient 3, and [clip_grad] is 1/4: in each of the
    three iterations the optimizer reads the gradient 3, of norm 3,
    whether [zero_grad()] resets gradients to [None] or to zero.
    [clip_grad_norm_] runs between [zero_grad()] and [backward()], when
    there is nothing to clip. *)
Theorem step_reads_unclipped_gradient (to_none : bool) :
  ∃ s,
    main (C := toy to_none true) toy_cfg 0%nat = Ok s ∧
    length (trace s) = 3%nat ∧
    Forall (fun it => ∃ g, it_step_grad it = Some g ∧
                           it_backward it = g ∧
                           clip_grad toy_cfg < abs_norm g) (trace s).
Proof.
  destruct to_none.
  - eexists. split; [vm_compute; reflexivity|]. split; [reflexivity|].
    repeat constructor; eexists; (split; [reflexivity|split; reflexivity]).
  - eexists. split; [vm_compute; reflexivity|]. split; [reflexivity|].
    repeat constructor; eexists; (split; [reflexivity|split; reflexivity]).
Qed.

End LoopExamples.

(** * Further properties of the search tree node *)

Section NodeSharing.

Import MCTS.

Context {TensorDict EnvBase : Type}.

Abbreviation node := (_MCTSNode TensorDict EnvBase).
Abbreviation heap := (list (_MCTSNode TensorDict EnvBase)).

Lemma getitem_insert_ne {A : Type} (t : list A) (i : Z) (k : nat) (x : A) :
  normalize_index (length t) i ≠ Ok k →
  getitem (<[k := x]> t) i = getitem t i.
Proof.
  intros Hne. unfold getitem. rewrite length_insert.
  destruct (normalize_index (length t) i) as [k'|e]; [|reflexivity].
  cbn [mbind result_bind]. rewrite list_lookup_insert_ne by congruence.
  reflexivity.
Qed.

Lemma getitem_insert_eq {A : Type} (t : list A) (i : Z) (k : nat) (x : A) :
  normalize_index (length t) i = Ok k →
  getitem (<[k := x]> t) i = Ok x.
Proof.
  intros Hk. apply getitem_Ok. exists k. rewrite length_insert.
  split; [exact Hk|]. apply list_lookup_insert_eq.
  now apply normalize_index_Ok in Hk.
Qed.

(** Replacing the object at [p] by one with the same [parent] and
    [prev_action] leaves these two attributes of every object as they
    were. *)
Lemma node_after_update (h : heap) (p c : addr) (pn pn' nd : node) :
  h !! p = Some pn → h !! c = Some nd →
  parent pn' = parent pn → prev_action pn' = prev_action pn →
  ∃ nd', <[p := pn']> h !! c = Some nd' ∧
         parent nd' = parent nd ∧ prev_action nd' = prev_action nd ∧
         (c ≠ p → nd' = nd) ∧ (c = p → nd' = pn').
Proof.
  intros Hp Hc Hpar Hact. destruct (decide (c = p)) as [->|Hne].
  - exists pn'. rewrite list_lookup_insert_eq by (eapply lookup_lt_Some; eauto).
    assert (nd = pn) as -> by congruence.
    split; [reflexivity|]. split; [exact Hpar|]. split; [exact Hact|].
    split; [intros Hne; now contradiction Hne|reflexivity].
  - exists nd. rewrite list_lookup_insert_ne by congruence.
    split; [exact Hc|]. split; [reflexivity|]. split; [reflexivity|].
    split; [reflexivity|contradiction].
Qed.

Lemma lookup_None_after_update (h : heap) (p c : addr) (pn pn' : node) :
  h !! p = Some pn → h !! c = None → <[p := pn']> h !! c = None.
Proof.
  intros Hp Hc. rewrite list_lookup_insert_ne; [exact Hc|]. congruence.
Qed.

(** The getters on a heap in which the object at [p] was replaced. *)
Lemma visit_count_update (h : heap) (p c : addr) (pn pn' : node) :
  h !! p = Some pn →
  parent pn' = parent pn → prev_action pn' = prev_action pn →
  visit_count (<[p := pn']> h) c =
  match h !! c with
  | Some nd =>
      if decide (parent nd = Some p)
      then getitem (_child_visit_count pn') (prev_action nd)
      else visit_count h c
  | None => visit_count h c
  end.
Proof.
  intros Hp Hpar Hact. destruct (h !! c) as [nd|] eqn:Hc.
  - destruct (node_after_update h p c pn pn' nd Hp Hc Hpar Hact)
      as (nd' & Hc' & Hpar' & Hact' & _).
    unfold visit_count. rewrite (deref_Some _ _ _ Hc'), (deref_Some _ _ _ Hc).
    cbn [mbind result_bind]. unfold parent_node. rewrite Hpar', Hact'.
    destruct (parent nd) as [p2|] eqn:Hp2.
    + destruct (decide (Some p2 = Some p)) as [[= ->]|Hne].
      * rewrite (deref_Some _ _ _ (lookup_parent_after_update h p pn Hp pn')).
        reflexivity.
      * unfold deref. rewrite list_lookup_insert_ne by congruence. reflexivity.
    + destruct (decide (None = Some p)); [discriminate|reflexivity].
  - unfold visit_count, deref.
    now rewrite (lookup_None_after_update _ _ _ _ pn' Hp Hc), Hc.
Qed.

Lemma total_value_update (h : heap) (p c : addr) (pn pn' : node) :
  h !! p = Some pn →
  parent pn' = parent pn → prev_action pn' = prev_action pn →
  total_value (<[p := pn']> h) c =
  match h !! c with
  | Some nd =>
      if decide (parent nd = Some p)
      then getitem (_child_total_value pn') (prev_action nd)
      else total_value h c
  | None => total_value h c
  end.
Proof.
  intros Hp Hpar Hact. destruct (h !! c) as [nd|] eqn:Hc.
  - destruct (node_after_update h p c pn pn' nd Hp Hc Hpar Hact)
      as (nd' & Hc' & Hpar' & Hact' & _).
    unfold total_value. rewrite (deref_Some _ _ _ Hc'), (deref_Some _ _ _ Hc).
    cbn [mbind result_bind]. unfold parent_node. rewrite Hpar', Hact'.
    destruct (parent nd) as [p2|] eqn:Hp2.
    + destruct (decide (Some p2 = Some p)) as [[= ->]|Hne].
      * rewrite (deref_Some _ _ _ (lookup_parent_after_update h p pn Hp pn')).
        reflexivity.
      * unfold deref. rewrite list_lookup_insert_ne by congruence. reflexivity.
    + destruct (decide (None = Some p)); [discriminate|reflexivity].
  - unfold total_value, deref.
    now rewrite (lookup_None_after_update _ _ _ _ pn' Hp Hc), Hc.
Qed.

(** A getter is unchanged by an update of [p] that keeps the array. *)
Lemma visit_count_update_same (h : heap) (p c : addr) (pn pn' : node) :
  h !! p = Some pn →
  parent pn' = parent pn → prev_action pn' = prev_action pn →
  _child_visit_count pn' = _child_visit_count pn →
  visit_count (<[p := pn']> h) c = visit_count h c.
Proof.
  intros Hp Hpar Hact Hsame. rewrite (visit_count_update h p c pn pn' Hp Hpar Hact).
  destruct (h !! c) as [nd|] eqn:Hc; [|reflexivity].
  destruct (decide (parent nd = Some p)) as [Hnd|]; [|reflexivity].
  now rewrite (visit_count_eq h c p nd pn Hc Hnd Hp), Hsame.
Qed.

Lemma total_value_update_same (h : heap) (p c : addr) (pn pn' : node) :
  h !! p = Some pn →
  parent pn' = parent pn → prev_action pn' = prev_action pn →
  _child_total_value pn' = _child_total_value pn →
  total_value (<[p := pn']> h) c = total_value h c.
Proof.
  intros Hp Hpar Hact Hsame. rewrite (total_value_update h p c pn pn' Hp Hpar Hact).
  destruct (h !! c) as [nd|] eqn:Hc; [|reflexivity].
  destruct (decide (parent nd = Some p)) as [Hnd|]; [|reflexivity].
  now rewrite (total_value_eq h c p nd pn Hc Hnd Hp), Hsame.
Qed.

(** X1.  A write through one node leaves every other cell as it was: any
    node that hangs under another parent, or whose [prev_action] denotes
    another cell of the same parent, reads (or fails to read) after the
    write exactly as before.  This holds for [visit_count] and for
    [total_value]. *)
Theorem write_leaves_other_nodes (h : heap) (c1 c2 p : addr)
    (nd1 nd2 pn : node) (k : nat) :
  h !! c1 = Some nd1 → parent nd1 = Some p → h !! p = Some pn →
  h !! c2 = Some nd2 →
  (∀ value h',
     normalize_index (length (_child_visit_count pn)) (prev_action nd1) = Ok k →
     (parent nd2 ≠ Some p ∨
      ¬ denotes (length (_child_visit_count pn)) (prev_action nd2) k) →
     set_visit_count h c1 value = Ok h' →
     visit_count h' c2 = visit_count h c2) ∧
  (∀ value h',
     normalize_index (length (_child_total_value pn)) (prev_action nd1) = Ok k →
     (parent nd2 ≠ Some p ∨
      ¬ denotes (length (_child_total_value pn)) (prev_action nd2) k) →
     set_total_value h c1 value = Ok h' →
     total_value h' c2 = total_value h c2).
Proof.
  intros Hc1 Hpar1 Hp Hc2. split.
  - intros value h' Hk Hother Hset.
    destruct (set_visit_count_Ok _ _ _ _ _ _ _ Hc1 Hpar1 Hp Hset)
      as (k' & Hk' & _ & ->).
    assert (k' = k) as -> by congruence.
    rewrite (visit_count_update h p c2 pn
               (with_child_visit_count pn (<[k:=value]> (_child_visit_count pn)))
               Hp eq_refl eq_refl), Hc2.
    destruct (decide (parent nd2 = Some p)) as [Hpar2|]; [|reflexivity].
    destruct Hother as [Hne|Hden]; [contradiction|].
    rewrite (visit_count_eq h c2 p nd2 pn Hc2 Hpar2 Hp).
    apply getitem_insert_ne. intros Hk2.
    apply Hden. now apply normalize_index_Ok in Hk2.
  - intros value h' Hk Hother Hset.
    destruct (set_total_value_Ok _ _ _ _ _ _ _ Hc1 Hpar1 Hp Hset)
      as (k' & x & _ & Hk' & ->).
    assert (k' = k) as -> by congruence.
    rewrite (total_value_update h p c2 pn
               (with_child_total_value pn (<[k:=x]> (_child_total_value pn)))
               Hp eq_refl eq_refl), Hc2.
    destruct (decide (parent nd2 = Some p)) as [Hpar2|]; [|reflexivity].
    destruct Hother as [Hne|Hden]; [contradiction|].
    rewrite (total_value_eq h c2 p nd2 pn Hc2 Hpar2 Hp).
    apply getitem_insert_ne. intros Hk2.
    apply Hden. now apply normalize_index_Ok in Hk2.
Qed.

(** X2.  Two nodes under the same parent whose [prev_action]s denote the
    same cell (the same action twice, or [a] and [a - n] for a parent
    with [n] cells) share their statistics: what a write through one has
    stored is read through the other, the count itself for [visit_count]
    and the value converted to [float32] for [total_value]. *)
Theorem same_cell_is_shared (h : heap) (c1 c2 p : addr)
    (nd1 nd2 pn : node) :
  h !! c1 = Some nd1 → parent nd1 = Some p → h !! p = Some pn →
  h !! c2 = Some nd2 → parent nd2 = Some p →
  fits_int64 (prev_action nd2) = true →
  (∀ k value h',
     denotes (length (_child_visit_count pn)) (prev_action nd1) k →
     denotes (length (_child_visit_count pn)) (prev_action nd2) k →
     set_visit_count h c1 value = Ok h' →
     visit_count h' c2 = Ok value) ∧
  (∀ k value x h',
     to_float32 value = Ok x →
     denotes (length (_child_total_value pn)) (prev_action nd1) k →
     denotes (length (_child_total_value pn)) (prev_action nd2) k →
     set_total_value h c1 value = Ok h' →
     total_value h' c2 = Ok x).
Proof.
  intros Hc1 Hpar1 Hp Hc2 Hpar2 Hfit. split.
  - intros k value h' Hd1 Hd2 Hset.
    destruct (set_visit_count_Ok _ _ _ _ _ _ _ Hc1 Hpar1 Hp Hset)
      as (k' & Hk' & _ & ->).
    assert (k' = k) as ->.
    { apply normalize_index_Ok in Hk' as (_ & _ & Hk').
      destruct Hd1 as (_ & Hd1). lia. }
    rewrite (visit_count_update h p c2 pn
               (with_child_visit_count pn (<[k:=value]> (_child_visit_count pn)))
               Hp eq_refl eq_refl), Hc2.
    destruct (decide (parent nd2 = Some p)); [|contradiction].
    apply getitem_insert_eq. apply denotes_normalize_index. auto.
  - intros k value x h' Hx Hd1 Hd2 Hset.
    destruct (set_total_value_Ok _ _ _ _ _ _ _ Hc1 Hpar1 Hp Hset)
      as (k' & x' & Hx' & Hk' & ->).
    assert (x' = x) as -> by congruence.
    assert (k' = k) as ->.
    { apply normalize_index_Ok in Hk' as (_ & _ & Hk').
      destruct Hd1 as (_ & Hd1). lia. }
    rewrite (total_value_update h p c2 pn
               (with_child_total_value pn (<[k:=x]> (_child_total_value pn)))
               Hp eq_refl eq_refl), Hc2.
    destruct (decide (parent nd2 = Some p)); [|contradiction].
    apply getitem_insert_eq. apply denotes_normalize_index. auto.
Qed.

(** X3.  The two statistics do not interfere: writing [visit_count]
    through any node changes the [total_value] of no node, and writing
    [total_value] changes the [visit_count] of no node. *)
Theorem setters_do_not_cross (h h' : heap) (c1 c2 p : addr) (nd1 pn : node) :
  h !! c1 = Some nd1 → parent nd1 = Some p → h !! p = Some pn →
  (∀ value, set_visit_count h c1 value = Ok h' →
            total_value h' c2 = total_value h c2) ∧
  (∀ value, set_total_value h c1 value = Ok h' →
            visit_count h' c2 = visit_count h c2).
Proof.
  intros Hc1 Hpar1 Hp. split; intros value Hset.
  - destruct (set_visit_count_Ok _ _ _ _ _ _ _ Hc1 Hpar1 Hp Hset)
      as (k & _ & _ & ->).
    now apply (total_value_update_same h p c2 pn).
  - destruct (set_total_value_Ok _ _ _ _ _ _ _ Hc1 Hpar1 Hp Hset)
      as (k & x & _ & _ & ->).
    now apply (visit_count_update_same h p c2 pn).
Qed.

End NodeSharing.

Section NodeLifeCycle.

Import MCTS.

Context {TensorDict EnvBase : Type}.

Abbreviation node := (_MCTSNode TensorDict EnvBase).
Abbreviation heap := (list (_MCTSNode TensorDict EnvBase)).

Lemma init_Ok_inv (can_allocate : Z → bool) (h h' : heap) (st : TensorDict)
    (n : Z) (e : EnvBase) (par : option addr) (a : Z) (c : Q) (new : addr) :
  __init__ can_allocate h st n e par a c = Ok (new, h') →
  constructible can_allocate n ∧ new = length h ∧
  h' = h ++ [ @mk_MCTSNode TensorDict EnvBase st n e par ∅ a false 0
                (replicate (Z.to_nat n) 0) (replicate (Z.to_nat n) (Finite 0))
                (replicate (Z.to_nat n) (Finite 0))
                (replicate (Z.to_nat n) (Finite 0)) ].
Proof.
  unfold __init__.
  destruct (zeros can_allocate 8 0 n) as [t1|e1] eqn:H1; [|discriminate].
  cbn [mbind result_bind].
  destruct (zeros can_allocate 4 (Finite 0) n) as [t2|e2] eqn:H2; [|discriminate].
  cbn [mbind result_bind]. intros [= <- <-].
  apply zeros_Ok_inv in H1 as (Hn & A1 & ->).
  apply zeros_Ok_inv in H2 as (_ & A2 & ->).
  split; [|auto]. split; [exact Hn|]. auto.
Qed.

Lemma with_child_visit_count_id (nd : node) :
  with_child_visit_count nd (_child_visit_count nd) = nd.
Proof. now destruct nd. Qed.

Lemma with_child_total_value_id (nd : node) :
  with_child_total_value nd (_child_total_value nd) = nd.
Proof. now destruct nd. Qed.

(** X4.  The constructor touches no existing object.  In particular the
    parent's [children] mapping does not receive the new node, and the
    statistics of the action are not reset: the new node's [visit_count]
    and [total_value] are what the parent's cell holds at that time.
    Nodes already in the tree read as before. *)
Theorem init_leaves_existing_objects (can_allocate : Z → bool) (h h' : heap)
    (st : TensorDict) (n : Z) (e : EnvBase) (par : option addr) (a : Z)
    (c : Q) (new : addr) :
  __init__ can_allocate h st n e par a c = Ok (new, h') →
  new = length h ∧ length h' = S (length h) ∧
  (∀ q nd, h !! q = Some nd → h' !! q = Some nd) ∧
  (∀ p pn, par = Some p → h !! p = Some pn →
     (∃ pn', h' !! p = Some pn' ∧ children pn' = children pn) ∧
     visit_count h' new = getitem (_child_visit_count pn) a ∧
     total_value h' new = getitem (_child_total_value pn) a) ∧
  (∀ q nd p pn, h !! q = Some nd → parent nd = Some p → h !! p = Some pn →
     visit_count h' q = visit_count h q ∧
     total_value h' q = total_value h q).
Proof.
  intros Hinit. apply init_Ok_inv in Hinit as (Hn & -> & ->).
  assert (Hold : ∀ q (nd : node) x, h !! q = Some nd → (h ++ [x]) !! q = Some nd).
  { intros q nd x Hq. rewrite lookup_app_l; [exact Hq|].
    eapply lookup_lt_Some; eauto. }
  split; [reflexivity|]. split; [rewrite length_app; simpl; lia|].
  split; [intros q nd; apply Hold|]. split.
  - intros p pn -> Hp. split; [eauto|].
    match goal with |- visit_count (h ++ [?x]) _ = _ ∧ _ => set (nd := x) end.
    assert (Hnew : (h ++ [nd]) !! length h = Some nd).
    { rewrite lookup_app_r by lia. now rewrite Nat.sub_diag. }
    rewrite (visit_count_eq _ _ _ _ _ Hnew eq_refl (Hold _ _ _ Hp)).
    rewrite (total_value_eq _ _ _ _ _ Hnew eq_refl (Hold _ _ _ Hp)).
    auto.
  - intros q nd p pn Hq Hpar Hp.
    rewrite (visit_count_eq _ _ _ _ _ (Hold _ _ _ Hq) Hpar (Hold _ _ _ Hp)).
    rewrite (total_value_eq _ _ _ _ _ (Hold _ _ _ Hq) Hpar (Hold _ _ _ Hp)).
    rewrite (visit_count_eq _ _ _ _ _ Hq Hpar Hp).
    rewrite (total_value_eq _ _ _ _ _ Hq Hpar Hp). auto.
Qed.


(** X6.  Writing back what was just read changes nothing: the setter
    returns the heap it was given. *)
Theorem write_back_is_identity (h : heap) (c : addr) :
  (∀ n, visit_count h c = Ok n → fits_int64 n = true →
        set_visit_count h c n = Ok h) ∧
  (∀ v, total_value h c = Ok v → set_total_value h c (PyTensor v) = Ok h).
Proof.
  split.
  - intros n Hn Hfit.
    destruct (visit_count_Ok_node _ _ _ Hn) as (nd & p & pn & Hc & Hpar & Hp).
    rewrite (visit_count_eq _ _ _ _ _ Hc Hpar Hp) in Hn.
    apply getitem_Ok in Hn as (k & Hk & Hcell).
    rewrite (set_visit_count_eq _ _ _ _ _ Hc Hpar Hp).
    unfold setitem_long, setitem. rewrite Hfit, Hk. cbn [mbind result_bind].
    rewrite (list_insert_id _ _ _ Hcell), with_child_visit_count_id.
    f_equal. apply list_insert_id, Hp.
  - intros v Hv.
    assert (∃ nd p pn, h !! c = Some nd ∧ parent nd = Some p ∧ h !! p = Some pn)
      as (nd & p & pn & Hc & Hpar & Hp).
    { revert Hv. unfold total_value, deref, parent_node, deref.
      destruct (h !! c) as [nd|] eqn:Hc; [|discriminate].
      cbn [mbind result_bind].
      destruct (parent nd) as [p|] eqn:Hpar; [|discriminate].
      destruct (h !! p) as [pn|] eqn:Hp; [|discriminate]. intros _. eauto 6. }
    rewrite (total_value_eq _ _ _ _ _ Hc Hpar Hp) in Hv.
    apply getitem_Ok in Hv as (k & Hk & Hcell).
    rewrite (set_total_value_eq _ _ _ _ _ Hc Hpar Hp).
    unfold setitem_float, to_float32. cbn [mbind result_bind].
    unfold setitem. rewrite Hk. cbn [mbind result_bind].
    rewrite (list_insert_id _ _ _ Hcell), with_child_total_value_id.
    f_equal. apply list_insert_id, Hp.
Qed.

End NodeLifeCycle.

Section NodeWellFormed.

Import MCTS.

Context {TensorDict EnvBase : Type}.

Abbreviation node := (_MCTSNode TensorDict EnvBase).
Abbreviation heap := (list (_MCTSNode TensorDict EnvBase)).

Lemma well_formed_nil : well_formed ([] : heap).
Proof. intros c nd Hc. discriminate Hc. Qed.

(** Replacing an object by one that differs in the content of an array
    only keeps the heap well formed. *)
Lemma well_formed_update (h : heap) (p : addr) (pn pn' : node) :
  well_formed h → h !! p = Some pn →
  n_actions pn' = n_actions pn → parent pn' = parent pn →
  prev_action pn' = prev_action pn →
  length (_child_visit_count pn') = length (_child_visit_count pn) →
  length (_child_total_value pn') = length (_child_total_value pn) →
  length (_original_prior pn') = length (_original_prior pn) →
  length (_child_prior pn') = length (_child_prior pn) →
  Forall (fun x => fits_int64 x = true) (_child_visit_count pn') →
  well_formed (<[p := pn']> h).
Proof.
  intros Hwf Hp Hn Hpar Hact Hl1 Hl2 Hl3 Hl4 Hfit c nd' Hc'.
  assert (Hparent : ∀ (q : addr) (qn : node), h !! q = Some qn →
            ∃ qn', <[p := pn']> h !! q = Some qn' ∧ n_actions qn' = n_actions qn).
  { intros q qn Hq.
    destruct (node_after_update h p q pn pn' qn Hp Hq Hpar Hact)
      as (qn' & Hq' & _ & _ & Hne & Heq).
    exists qn'. split; [exact Hq'|].
    destruct (decide (q = p)) as [->|Hqp].
    - rewrite (Heq eq_refl). assert (qn = pn) as -> by congruence. exact Hn.
    - now rewrite (Hne Hqp). }
  assert (Hcases : ∃ nd, h !! c = Some nd ∧ n_actions nd' = n_actions nd ∧
            parent nd' = parent nd ∧ prev_action nd' = prev_action nd ∧
            length (_child_visit_count nd') = length (_child_visit_count nd) ∧
            length (_child_total_value nd') = length (_child_total_value nd) ∧
            length (_original_prior nd') = length (_original_prior nd) ∧
            length (_child_prior nd') = length (_child_prior nd) ∧
            (Forall (fun x => fits_int64 x = true) (_child_visit_count nd) →
             Forall (fun x => fits_int64 x = true) (_child_visit_count nd'))).
  { apply list_lookup_insert_Some in Hc' as [(<- & <- & Hlt)|(Hne & Hc)].
    - exists pn. auto 10.
    - exists nd'. auto 10. }
  destruct Hcases as (nd & Hc & En & Epar & Eact & E1 & E2 & E3 & E4 & Efit).
  destruct (Hwf c nd Hc) as (W0 & W1 & W2 & W3 & W4 & W5 & W6).
  unfold well_formed_node. rewrite En, Epar, Eact, E1, E2, E3, E4.
  repeat (split; [assumption || auto|]).
  destruct (parent nd) as [q|]; [|exact I].
  destruct W6 as (Hlt & Hfa & qn & Hq & Hrange).
  split; [exact Hlt|]. split; [exact Hfa|].
  destruct (Hparent q qn Hq) as (qn' & Hq' & Hqn). exists qn'. now rewrite Hqn.
Qed.

(** X7.  The empty heap is well formed, and the constructor and the
    two setters keep a heap well formed: the constructor when it is given
    no parent, or a parent of the heap together with one of its actions
    as [prev_action]; the setters whenever they return. *)
Theorem well_formed_is_kept :
  well_formed ([] : heap) ∧
  ∀ h : heap, well_formed h →
    (∀ can_allocate st n e par a c new h',
       (par = None ∨
        ∃ p pn, par = Some p ∧ h !! p = Some pn ∧
                fits_int64 a = true ∧ 0 ≤ a < n_actions pn) →
       __init__ can_allocate h st n e par a c = Ok (new, h') →
       well_formed h') ∧
    (∀ c value h', set_visit_count h c value = Ok h' → well_formed h') ∧
    (∀ c value h', set_total_value h c value = Ok h' → well_formed h').
Proof.
  split; [apply well_formed_nil|]. intros h Hwf.
  split; [|split].
  - intros can_allocate st n e par a c new h' Hpar Hinit.
    apply init_Ok_inv in Hinit as ([[Hn _] _] & -> & ->).
    intros q nd Hq.
    assert (Hold : ∀ r (x : node), h !! r = Some x →
              (h ++ [ @mk_MCTSNode TensorDict EnvBase st n e par ∅ a false 0
                        (replicate (Z.to_nat n) 0)
                        (replicate (Z.to_nat n) (Finite 0))
                        (replicate (Z.to_nat n) (Finite 0))
                        (replicate (Z.to_nat n) (Finite 0)) ]) !! r = Some x).
    { intros r x Hr. rewrite lookup_app_l; [exact Hr|].
      eapply lookup_lt_Some; eauto. }
    destruct (decide (q < length h)%nat) as [Hlt|Hge].
    + rewrite lookup_app_l in Hq by exact Hlt.
      destruct (Hwf q nd Hq) as (W0 & W1 & W2 & W3 & W4 & W5 & W6).
      repeat (split; [assumption|]).
      destruct (parent nd) as [r|]; [|exact I].
      destruct W6 as (Hr & Hfa & rn & Hrn & Hrange).
      split; [exact Hr|]. split; [exact Hfa|]. exists rn. auto.
    + assert (q = length h) as ->.
      { apply lookup_lt_Some in Hq. rewrite length_app in Hq. simpl in Hq. lia. }
      rewrite lookup_app_r, Nat.sub_diag in Hq by lia. injection Hq as <-.
      unfold well_formed_node. simpl. rewrite !length_replicate.
      repeat (split; [reflexivity || assumption|]).
      split; [apply Forall_replicate; reflexivity|].
      destruct Hpar as [->|(p & pn & -> & Hp & Hfa & Hrange)]; [exact I|].
      split; [eapply lookup_lt_Some; eauto|]. split; [exact Hfa|].
      exists pn. auto.
  - intros c value h' Hset.
    assert (∃ nd p pn, h !! c = Some nd ∧ parent nd = Some p ∧ h !! p = Some pn)
      as (nd & p & pn & Hc & Hpar & Hp).
    { revert Hset. unfold set_visit_count, deref, parent_node, deref.
      destruct (h !! c) as [nd|] eqn:Hc; [|discriminate].
      cbn [mbind result_bind].
      destruct (parent nd) as [p|] eqn:Hpar; [|discriminate].
      destruct (h !! p) as [pn|] eqn:Hp; [|discriminate]. intros _. eauto 6. }
    destruct (set_visit_count_Ok _ _ _ _ _ _ _ Hc Hpar Hp Hset)
      as (k & Hk & Hfit & ->).
    apply (well_formed_update h p pn); try assumption; try reflexivity.
    + simpl. apply length_insert.
    + simpl. destruct (Hwf p pn Hp) as (_ & _ & _ & _ & _ & W5 & _).
      apply Forall_insert; assumption.
  - intros c value h' Hset.
    assert (∃ nd p pn, h !! c = Some nd ∧ parent nd = Some p ∧ h !! p = Some pn)
      as (nd & p & pn & Hc & Hpar & Hp).
    { revert Hset. unfold set_total_value, deref, parent_node, deref.
      destruct (h !! c) as [nd|] eqn:Hc; [|discriminate].
      cbn [mbind result_bind].
      destruct (parent nd) as [p|] eqn:Hpar; [|discriminate].
      destruct (h !! p) as [pn|] eqn:Hp; [|discriminate]. intros _. eauto 6. }
    destruct (set_total_value_Ok _ _ _ _ _ _ _ Hc Hpar Hp Hset)
      as (k & x & _ & Hk & ->).
    apply (well_formed_update h p pn); try assumption; try reflexivity.
    + simpl. apply length_insert.
    + simpl. now destruct (Hwf p pn Hp) as (_ & _ & _ & _ & _ & W5 & _).
Qed.


Lemma wrap_int64_succ_zero (n : Z) :
  fits_int64 n = true → (wrap_int64 (1 + n) = 0 ↔ n = -1).
Proof.
  unfold fits_int64, int64_min, int64_max, wrap_int64. intros Hfit.
  apply andb_true_iff in Hfit as [Hlo Hhi].
  apply Z.leb_le in Hlo, Hhi.
  destruct (decide (n = 2 ^ 63 - 1)) as [->|Hne].
  - replace (1 + (2 ^ 63 - 1) + 2 ^ 63) with (1 * 2 ^ 64) by lia.
    rewrite Z.mod_mul by lia. lia.
  - rewrite Z.mod_small by lia. lia.
Qed.

(** X9.  [action_value] never raises once the two getters return.  The
    "+ 1" of its divisor excludes a division by zero for the count 0
    only: at the count -1, which the setter accepts, the divisor is zero
    and the result is an infinity or NaN, never a number; for a total
    that is a [float32] number the result is a number exactly when the
    count is not -1. *)
Theorem action_value_finite_iff (h : heap) (c : addr) (n : Z) (v : fval) :
  visit_count h c = Ok n → total_value h c = Ok v → fits_int64 n = true →
  (∃ f, action_value h c = Ok f) ∧
  (n = -1 → ∀ q, action_value h c ≠ Ok (Finite q)) ∧
  (∀ q, v = Finite q → (Qabs q <= f32_max)%Q →
        ((∃ q', action_value h c = Ok (Finite q')) ↔ n ≠ -1)).
Proof.
  intros Hn Hv Hfit. unfold action_value. rewrite Hv, Hn.
  cbn [mbind result_bind]. split; [eauto|].
  pose proof (wrap_int64_succ_zero n Hfit) as Hzero.
  assert (Hat : n = -1 → ∀ q, Ok (true_divide v (wrap_int64 (1 + n)))
                               ≠ Ok (Finite q)).
  { intros Hm1 q [= Hq]. apply Hzero in Hm1. rewrite Hm1 in Hq.
    exact (f32_div_by_zero v q Hq). }
  split; [exact Hat|]. intros q -> Hq. split.
  - intros [q' Hq'] Hm1. exact (Hat Hm1 q' Hq').
  - intros Hne.
    assert (Hnz : wrap_int64 (1 + n) ≠ 0) by (intros Hz; apply Hne, Hzero, Hz).
    assert (Hrange : - 2 ^ 64 ≤ wrap_int64 (1 + n) ≤ 2 ^ 64).
    { unfold wrap_int64.
      pose proof (Z.mod_pos_bound (1 + n + 2 ^ 63) (2 ^ 64) ltac:(lia)). lia. }
    destruct (f32_of_int_nonzero _ Hnz Hrange) as (d & Hd & Hd1).
    unfold true_divide. rewrite Hd.
    destruct (f32_div_finite q d Hq Hd1) as [q' Hq']. rewrite Hq'. eauto.
Qed.

End NodeWellFormed.

Section NodeMoreExamples.

Import MCTS Examples.

Lemma tree3_well_formed (a : Z) :
  fits_int64 a = true → 0 ≤ a < 3 → well_formed (tree3 a).
Proof.
  intros Hfit Ha c nd Hc. destruct c as [|[|c]]; simpl in Hc;
    [injection Hc as <-|injection Hc as <-|discriminate Hc].
  - unfold well_formed_node. simpl.
    do 5 (split; [reflexivity || lia|]). split; [repeat constructor|exact I].
  - unfold well_formed_node. simpl.
    do 5 (split; [reflexivity || lia|]). split; [repeat constructor|].
    split; [unfold the_root; lia|]. split; [exact Hfit|].
    exists root3. split; [reflexivity|exact Ha].
Qed.

Lemma write_leaves_other_nodes_witness :
  ∃ h', set_visit_count (family3 1 2) the_child 7 = Ok h' ∧
        visit_count h' the_sibling = visit_count (family3 1 2) the_sibling.
Proof.
  destruct (write_leaves_other_nodes (family3 1 2) the_child the_sibling
              the_root (child_of_root3 1) (child_of_root3 2) root3 1%nat
              eq_refl eq_refl eq_refl eq_refl) as [Hcounts _].
  eexists. split; [reflexivity|].
  apply (Hcounts 7); [reflexivity| |reflexivity].
  right. unfold denotes. simpl. lia.
Defined.

Lemma same_cell_is_shared_witness :
  ∃ h', set_visit_count (family3 2 (-1)) the_child 7 = Ok h' ∧
        visit_count h' the_sibling = Ok 7.
Proof.
  destruct (same_cell_is_shared (family3 2 (-1)) the_child the_sibling
              the_root (child_of_root3 2) (child_of_root3 (-1)) root3
              eq_refl eq_refl eq_refl eq_refl eq_refl eq_refl) as [Hcounts _].
  eexists. split; [reflexivity|].
  apply (Hcounts 2%nat 7); [| |reflexivity]; unfold denotes; simpl; lia.
Defined.

Lemma setters_do_not_cross_witness :
  ∃ h', set_visit_count (family3 1 2) the_child 7 = Ok h' ∧
        total_value h' the_child = total_value (family3 1 2) the_child.
Proof.
  eexists. split; [reflexivity|].
  match goal with
  | |- total_value ?h' _ = _ =>
      destruct (setters_do_not_cross (family3 1 2) h' the_child the_child
                  the_root (child_of_root3 1) root3 eq_refl eq_refl eq_refl)
        as [Hcross _]
  end.
  apply (Hcross 7). reflexivity.
Defined.

Lemma init_leaves_existing_objects_witness :
  ∃ new h',
    __init__ plenty [with_child_visit_count root3 [0; 5; 0]; child_of_root3 1]
      tt 3 tt (Some the_root) 1 c_PUCT = Ok (new, h') ∧
    visit_count h' new = Ok 5.
Proof.
  edestruct (init_leaves_existing_objects plenty
               [with_child_visit_count root3 [0; 5; 0]; child_of_root3 1]
               _ tt 3 tt (Some the_root) 1 c_PUCT _ eq_refl)
    as (_ & _ & _ & Hnew & _).
  destruct (Hnew the_root _ eq_refl eq_refl) as (_ & Hcount & _).
  eexists _, _. split; [reflexivity|exact Hcount].
Defined.


Lemma write_back_is_identity_witness :
  set_visit_count (tree3 1) the_child 0 = Ok (tree3 1).
Proof.
  apply (proj1 (write_back_is_identity (tree3 1) the_child) 0); reflexivity.
Defined.

Lemma well_formed_is_kept_witness :
  ∃ h', set_visit_count (tree3 1) the_child 7 = Ok h' ∧ well_formed h'.
Proof.
  destruct (well_formed_is_kept (TensorDict := unit) (EnvBase := unit))
    as [_ Hkept].
  destruct (Hkept (tree3 1)) as (_ & Hset & _);
    [apply tree3_well_formed; [reflexivity|lia]|].
  eexists. split; [reflexivity|]. apply (Hset the_child 7). reflexivity.
Defined.


Lemma action_value_finite_iff_witness :
  ∃ h', set_visit_count (tree3 1) the_child (-1) = Ok h' ∧
        ¬ ∃ q, action_value h' the_child = Ok (Finite q).
Proof.
  eexists. split; [reflexivity|].
  match goal with
  | |- ¬ ∃ q, action_value ?h' _ = _ =>
      destruct (action_value_finite_iff h' the_child (-1) (Finite 0))
        as (_ & Hat & _); [reflexivity|reflexivity|reflexivity|]
  end.
  intros [q Hq]. exact (Hat eq_refl q Hq).
Defined.

End NodeMoreExamples.

(** * Further properties of the pretraining loop *)

Section LoopMore.

Import OnlineDT.

Context {World Batch Traj : Type} {C : Collaborators World Batch Traj}.

Local Open Scope Q_scope.

Lemma pretrain_step_interval_zero (cfg : Config) (i : nat) (s : Locals World Traj) :
  pretrain_log_interval cfg = 0%Z →
  pretrain_step cfg i s = Raise ZeroDivisionError.
Proof.
  intros Hzero. unfold pretrain_step. destruct (sample (world s)) as [w1 data].
  now rewrite Hzero.
Qed.

Lemma py_truediv_zero (a b : Q) : b == 0 → py_truediv a b = Raise ZeroDivisionError.
Proof.
  intros Hb. unfold py_truediv. apply Qeq_bool_iff in Hb. now rewrite Hb.
Qed.

Lemma first_step_scaling_zero (cfg : Config) (w : World) :
  pretrain_log_interval cfg ≠ 0%Z → reward_scaling cfg == 0 →
  pretrain_step cfg 0 (initially w) = Raise ZeroDivisionError.
Proof.
  intros Hint Hzero. unfold pretrain_step.
  destruct (sample (world (initially w))) as [w1 data].
  rewrite (py_mod_Ok _ _ Hint). cbn [mbind result_bind].
  rewrite Z.mod_0_l by exact Hint. simpl (0 =? 0)%Z. cbv iota.
  destruct (rollout _ _) as [w5 td].
  cbn [from_option fst snd r0 initially mbind result_bind load_local].
  now rewrite (py_truediv_zero _ _ Hzero).
Qed.





(** The loop returns for every number of iterations when neither the
    interval nor the reward scale is zero. *)
Lemma pretrain_loop_returns (cfg : Config) (w : World) (n : nat) :
  pretrain_log_interval cfg ≠ 0%Z → ¬ reward_scaling cfg == 0 →
  ∃ s, pretrain_loop cfg (seq 0 n) (initially w) = Ok s ∧
       length (trace s) = n ∧
       ∀ i it, trace s !! i = Some it →
         it_index it = i ∧
         (is_Some (it_rollout it) ↔
          (Z.of_nat i `mod` pretrain_log_interval cfg)%Z = 0%Z) ∧
         ∃ j itj, latest_rollout (trace s) i j ∧ trace s !! j = Some itj ∧
                  it_eval_reward it = it_eval_reward itj.
Proof.
  intros Hint Hscale. destruct n as [|n].
  - exists (initially w). split; [reflexivity|]. split; [reflexivity|].
    intros i it Hit. discriminate Hit.
  - destruct (pretrain_loop_inv cfg w Hint Hscale) as (it0 & _ & _ & Hrun).
    destruct (Hrun (S n)) as (s & Hs & Hlen & _ & _ & _ & _ & Hall); [lia|].
    exists s. split; [exact Hs|]. split; [exact Hlen|].
    intros i it Hit.
    destruct (Hall i it Hit)
      as (H1 & H2 & _ & _ & _ & _ & _ & _ & j & itj & td & Hl & Hj & _ & _ & Heq).
    eauto 8.
Qed.

(** X10.  Apart from what its collaborators may raise, the loop raises
    nothing but [ZeroDivisionError], and
    exactly when it runs at least one iteration with a log interval or a
    reward scale of zero; in all other cases it returns, after as many
    iterations as configured (none for a count that is not positive).  In
    particular [eval_td] is never read before it is assigned. *)
Theorem main_raises_only_ZeroDivisionError (cfg : Config) (w : World) :
  (pretrain_gradient_steps cfg ≤ 0 → main cfg w = Ok (initially w))%Z ∧
  ((1 ≤ pretrain_gradient_steps cfg)%Z →
   pretrain_log_interval cfg = 0%Z ∨ reward_scaling cfg == 0 →
   main cfg w = Raise ZeroDivisionError) ∧
  ((1 ≤ pretrain_gradient_steps cfg)%Z →
   pretrain_log_interval cfg ≠ 0%Z → ¬ reward_scaling cfg == 0 →
   ∃ s, main cfg w = Ok s ∧
        length (trace s) = Z.to_nat (pretrain_gradient_steps cfg)) ∧
  (∀ e, main cfg w = Raise e → e = ZeroDivisionError).
Proof.
  assert (Hnone : (pretrain_gradient_steps cfg ≤ 0)%Z → main cfg w = Ok (initially w)).
  { intros Hn. unfold main. now rewrite Z2Nat.nonpos by exact Hn. }
  assert (Hraise : (1 ≤ pretrain_gradient_steps cfg)%Z →
            pretrain_log_interval cfg = 0%Z ∨ reward_scaling cfg == 0 →
            main cfg w = Raise ZeroDivisionError).
  { intros Hn Hzero. unfold main.
    destruct (Z.to_nat (pretrain_gradient_steps cfg)) as [|n] eqn:Hsteps; [lia|].
    cbn [seq pretrain_loop].
    destruct (Z.eq_dec (pretrain_log_interval cfg) 0%Z) as [Hint|Hint].
    - now rewrite (pretrain_step_interval_zero _ _ _ Hint).
    - destruct Hzero as [Hint0|Hscale]; [contradiction|].
      now rewrite (first_step_scaling_zero _ _ Hint Hscale). }
  assert (Hret : (1 ≤ pretrain_gradient_steps cfg)%Z →
            pretrain_log_interval cfg ≠ 0%Z → ¬ reward_scaling cfg == 0 →
            ∃ s, main cfg w = Ok s ∧
                 length (trace s) = Z.to_nat (pretrain_gradient_steps cfg)).
  { intros Hn Hint Hscale.
    destruct (pretrain_loop_returns cfg w
                (Z.to_nat (pretrain_gradient_steps cfg)) Hint Hscale)
      as (s & Hs & Hlen & _).
    exists s. auto. }
  split; [exact Hnone|]. split; [exact Hraise|]. split; [exact Hret|].
  intros e He.
  destruct (Z.le_gt_cases (pretrain_gradient_steps cfg) 0%Z) as [Hn|Hn].
  { rewrite (Hnone Hn) in He. discriminate He. }
  destruct (Z.eq_dec (pretrain_log_interval cfg) 0%Z) as [Hint|Hint].
  { rewrite Hraise in He by (lia || auto). now injection He as <-. }
  destruct (Qeq_dec (reward_scaling cfg) 0) as [Hscale|Hscale].
  { rewrite Hraise in He by (lia || auto). now injection He as <-. }
  destruct (Hret ltac:(lia) Hint Hscale) as (s & Hs & _).
  rewrite Hs in He. discriminate He.
Qed.

End LoopMore.

Section LoopRuns.

Import OnlineDT.

Context {World Batch Traj : Type} {C : Collaborators World Batch Traj}.

Local Open Scope Q_scope.

Lemma latest_multiple (i m : Z) :
  (0 ≤ i → 0 < m →
   0 ≤ i - i `mod` m ≤ i ∧ (i - i `mod` m) `mod` m = 0 ∧
   i - (i - i `mod` m) < m ∧
   ∀ j, 0 ≤ j ≤ i → j `mod` m = 0 → j ≤ i - i `mod` m)%Z.
Proof.
  intros Hi Hm.
  pose proof (Z.mod_pos_bound i m Hm) as Hr.
  pose proof (Z.div_mod i m ltac:(lia)) as Hdiv.
  pose proof (Z.div_pos i m Hi Hm) as Hq.
  split; [nia|]. split.
  { replace (i - i `mod` m)%Z with ((i / m) * m)%Z by lia.
    apply Z.mod_mul. lia. }
  split; [lia|].
  intros j Hj Hjm.
  pose proof (Z.div_mod j m ltac:(lia)) as Hjdiv. rewrite Hjm in Hjdiv.
  assert (j / m ≤ i / m)%Z by (apply Z.div_le_mono; lia).
  nia.
Qed.

(** X11.  For a positive log interval [m], the evaluation reward that
    iteration [i] logs and shows is the one of iteration
    [i - i % m], the latest multiple of [m]: it is never older than
    [m - 1] iterations. *)
Theorem reward_is_of_latest_multiple (cfg : Config) (w : World) (n : nat) :
  (0 < pretrain_log_interval cfg)%Z → ¬ reward_scaling cfg == 0 →
  ∃ s, pretrain_loop cfg (seq 0 n) (initially w) = Ok s ∧
       ∀ i, (i < n)%nat →
         let j := Z.to_nat (Z.of_nat i - Z.of_nat i `mod` pretrain_log_interval cfg) in
         ∃ it itj,
           trace s !! i = Some it ∧ trace s !! j = Some itj ∧
           is_Some (it_rollout itj) ∧
           it_eval_reward it = it_eval_reward itj ∧
           (j ≤ i)%nat ∧ (Z.of_nat i - Z.of_nat j < pretrain_log_interval cfg)%Z.
Proof.
  intros Hm Hscale.
  destruct (pretrain_loop_returns cfg w n ltac:(lia) Hscale)
    as (s & Hs & Hlen & Hall).
  exists s. split; [exact Hs|]. intros i Hi j.
  destruct (latest_multiple (Z.of_nat i) (pretrain_log_interval cfg)
              ltac:(lia) Hm) as (Hj0 & Hjmod & Hage & Hmax).
  assert (Hji : (j ≤ i)%nat) by (unfold j; lia).
  assert (Hjz : Z.of_nat j
                = (Z.of_nat i - Z.of_nat i `mod` pretrain_log_interval cfg)%Z)
    by (unfold j; lia).
  destruct (lookup_lt_is_Some_2 (trace s) i) as [it Hit]; [lia|].
  destruct (lookup_lt_is_Some_2 (trace s) j) as [itj Hitj]; [lia|].
  destruct (Hall i it Hit) as (_ & _ & l & itl & Hlatest & Hl & Heq).
  destruct (Hall j itj Hitj) as (_ & Hjran & _).
  assert (Hran : is_Some (it_rollout itj)) by (apply Hjran; now rewrite Hjz).
  assert (l = j) as ->.
  { destruct Hlatest as (Hle & (x & Hx & Hxran) & Hnone).
    destruct (Hall l x Hx) as (_ & Hlran & _).
    apply Hlran in Hxran.
    assert (l ≤ j)%nat by (specialize (Hmax (Z.of_nat l)); lia).
    destruct (decide (l = j)) as [|Hne]; [assumption|].
    assert (Hnot : it_rollout itj = None) by (apply (Hnone j); [lia|exact Hitj]).
    rewrite Hnot in Hran. destruct Hran as [? Hran]. discriminate Hran. }
  assert (itl = itj) as -> by congruence.
  exists it, itj. repeat (split; [assumption|]). lia.
Qed.

Lemma ceil_div_succ (n m : Z) :
  (0 ≤ n → 0 < m →
   (n + 1 + m - 1) / m
   = (n + m - 1) / m + (if decide (n `mod` m = 0) then 1 else 0))%Z.
Proof.
  intros Hn Hm.
  pose proof (Z.mod_pos_bound n m Hm) as Hr.
  pose proof (Z.div_mod n m ltac:(lia)) as Hdiv.
  destruct (decide (n `mod` m = 0)%Z) as [Hz|Hnz].
  - replace (n + 1 + m - 1)%Z with ((n / m + 1) * m + 0)%Z by lia.
    replace (n + m - 1)%Z with ((n / m) * m + (m - 1))%Z by lia.
    rewrite !Z.div_add_l by lia.
    rewrite Z.div_0_l, (Z.div_small (m - 1) m) by lia. lia.
  - replace (n + 1 + m - 1)%Z with ((n / m + 1) * m + n `mod` m)%Z by lia.
    replace (n + m - 1)%Z with ((n / m + 1) * m + (n `mod` m - 1))%Z by lia.
    rewrite !Z.div_add_l by lia.
    rewrite (Z.div_small (n `mod` m) m), (Z.div_small (n `mod` m - 1) m) by lia.
    lia.
Qed.

Lemma count_multiples (m : Z) (tr : list (Iteration Traj)) :
  (0 < m)%Z →
  (∀ i it, tr !! i = Some it →
     (is_Some (it_rollout it) ↔ (Z.of_nat i `mod` m)%Z = 0%Z)) →
  Z.of_nat (length (rollouts_run tr)) = ((Z.of_nat (length tr) + m - 1) / m)%Z.
Proof.
  intros Hm. induction tr as [|x tr IH] using rev_ind; intros Hall.
  - simpl. rewrite Z.div_small; lia.
  - unfold rollouts_run in *. rewrite filter_app, !length_app, !Nat2Z.inj_add.
    rewrite IH.
    2:{ intros i it Hit. apply Hall. rewrite lookup_app_l; [exact Hit|].
        eapply lookup_lt_Some; eauto. }
    assert (Hx : (tr ++ [x]) !! length tr = Some x).
    { rewrite lookup_app_r by lia. now rewrite Nat.sub_diag. }
    specialize (Hall (length tr) x Hx).
    replace (Z.of_nat (length tr) + Z.of_nat (length [x]) + m - 1)%Z
      with (Z.of_nat (length tr) + 1 + m - 1)%Z by (simpl; lia).
    rewrite ceil_div_succ by lia. f_equal.
    rewrite filter_cons, filter_nil.
    destruct (decide (is_Some (it_rollout x))) as [Hran|Hnot];
      destruct (decide (Z.of_nat (length tr) `mod` m = 0)%Z) as [Hz|Hnz];
      try reflexivity.
    + apply Hall in Hran. contradiction.
    + apply Hall in Hz. contradiction.
Qed.

(** X12.  For a positive log interval [m], a run of [n] iterations
    performs [ceil(n / m)] evaluation rollouts. *)
Theorem number_of_rollouts (cfg : Config) (w : World) (n : nat) :
  (0 < pretrain_log_interval cfg)%Z → ¬ reward_scaling cfg == 0 →
  ∃ s, pretrain_loop cfg (seq 0 n) (initially w) = Ok s ∧
       Z.of_nat (length (rollouts_run (trace s)))
       = ((Z.of_nat n + pretrain_log_interval cfg - 1)
          / pretrain_log_interval cfg)%Z.
Proof.
  intros Hm Hscale.
  destruct (pretrain_loop_returns cfg w n ltac:(lia) Hscale)
    as (s & Hs & Hlen & Hall).
  exists s. split; [exact Hs|]. rewrite <- Hlen.
  apply count_multiples; [exact Hm|].
  intros i it Hit. now destruct (Hall i it Hit) as (_ & Hran & _).
Qed.


End LoopRuns.

Section LoopConfiguration.

Import OnlineDT.

Context {World Batch Traj : Type} {C : Collaborators World Batch Traj}.

Local Open Scope Q_scope.

Lemma pretrain_step_with_clip_grad (cfg : Config) (c : Q) (i : nat)
    (s : Locals World Traj) :
  set_to_none = true →
  pretrain_step (with_clip_grad cfg c) i s = pretrain_step cfg i s.
Proof.
  intros Hnone. unfold pretrain_step, with_clip_grad.
  cbn [pretrain_gradient_steps clip_grad eval_steps pretrain_log_interval
       reward_scaling].
  rewrite Hnone. reflexivity.
Qed.

(** X14.  When [zero_grad()] resets the gradients to [None], the
    configured [clip_grad] has no effect on the run: with any other
    threshold [main] returns the same state and the same records, or
    raises the same exception. *)
Theorem clip_grad_is_ignored (cfg : Config) (w : World) (c : Q) :
  set_to_none = true →
  main (with_clip_grad cfg c) w = main cfg w.
Proof.
  intros Hnone. unfold main.
  change (pretrain_gradient_steps (with_clip_grad cfg c))
    with (pretrain_gradient_steps cfg).
  generalize (seq 0 (Z.to_nat (pretrain_gradient_steps cfg)))
             (initially (Traj := Traj) w).
  intros indices. induction indices as [|i rest IH]; intros s; [reflexivity|].
  cbn [pretrain_loop]. rewrite (pretrain_step_with_clip_grad _ _ _ _ Hnone).
  destruct (pretrain_step cfg i s) as [s1|e]; [|reflexivity].
  cbn [mbind result_bind]. apply IH.
Qed.

Lemma pretrain_loop_pbar_counter (cfg : Config) (indices : list nat)
    (counter : Z) (s : Locals World Traj) :
  pretrain_loop_pbar cfg indices (counter, s) =
  (s' ← pretrain_loop cfg indices s;
   Ok ((counter + foldr (fun i acc => Z.of_nat i + acc) 0 indices)%Z, s')).
Proof.
  revert counter s. induction indices as [|i rest IH]; intros counter s.
  - cbn. now rewrite Z.add_0_r.
  - cbn [pretrain_loop_pbar pretrain_loop foldr]. unfold pretrain_step_pbar.
    cbn [fst snd]. destruct (pretrain_step cfg i s) as [s1|e]; [|reflexivity].
    cbn [mbind result_bind]. rewrite IH. unfold pbar_update.
    destruct (pretrain_loop cfg rest s1) as [s2|e]; [|reflexivity].
    cbn [mbind result_bind]. do 2 f_equal. lia.
Qed.

Lemma sum_seq_0 (n : nat) :
  (2 * foldr (fun i acc => Z.of_nat i + acc) 0 (seq 0 n)
   = Z.of_nat n * (Z.of_nat n - 1))%Z.
Proof.
  induction n as [|n IH]; [reflexivity|].
  rewrite seq_S, foldr_app. cbn [foldr Nat.add].
  assert (Hshift : ∀ (l : list nat) (z : Z),
            (foldr (fun i acc => Z.of_nat i + acc) z l
             = foldr (fun i acc => Z.of_nat i + acc) 0 l + z)%Z).
  { induction l as [|x l IHl]; intros z; cbn [foldr]; [lia|].
    rewrite (IHl z). lia. }
  rewrite Hshift. lia.
Qed.

(** X15.  The progress bar does not count iterations: [pbar.update(i)]
    adds the index [i] to its counter, so after [N] completed iterations
    the counter stands at [N (N - 1) / 2].  It agrees with the total [N]
    given to the bar only for [N = 0] and [N = 3]; the rest of the run
    does not depend on the bar. *)
Theorem progress_counter (cfg : Config) (w : World) :
  let N := Z.max 0 (pretrain_gradient_steps cfg) in
  main_pbar cfg w = (s ← main cfg w; Ok ((N * (N - 1) / 2)%Z, s)) ∧
  ((N * (N - 1) / 2 = N)%Z ↔ N = 0%Z ∨ N = 3%Z).
Proof.
  intros N.
  assert (HN : N = Z.of_nat (Z.to_nat (pretrain_gradient_steps cfg)))
    by (unfold N; lia).
  pose proof (sum_seq_0 (Z.to_nat (pretrain_gradient_steps cfg))) as Hsum.
  rewrite <- HN in Hsum.
  assert (Hdiv : (N * (N - 1) / 2
                  = foldr (fun i acc => Z.of_nat i + acc) 0
                      (seq 0 (Z.to_nat (pretrain_gradient_steps cfg))))%Z).
  { symmetry. apply Z.div_unique_exact; lia. }
  split.
  - unfold main_pbar, main. rewrite pretrain_loop_pbar_counter, Hdiv.
    reflexivity.
  - rewrite Hdiv. nia.
Qed.

End LoopConfiguration.

Section LoopMoreExamples.

Import OnlineDT Examples.

Local Open Scope Q_scope.

Lemma reward_is_of_latest_multiple_witness :
  ∃ s it0 it1,
    main (C := toy true true) toy_cfg 0%nat = Ok s ∧
    trace s !! 0%nat = Some it0 ∧ trace s !! 1%nat = Some it1 ∧
    it_eval_reward it1 = it_eval_reward it0.
Proof.
  destruct (reward_is_of_latest_multiple (C := toy true true) toy_cfg 0%nat 3)
    as (s & Hs & Hall);
    [simpl; lia|intros H; vm_compute in H; discriminate H|].
  destruct (Hall 1%nat) as (it1 & it0 & H1 & H0 & _ & Heq & _); [lia|].
  exists s, it0, it1. auto.
Defined.

Lemma number_of_rollouts_witness :
  ∃ s, main (C := toy true true) toy_cfg 0%nat = Ok s ∧
       length (rollouts_run (trace s)) = 2%nat.
Proof.
  destruct (number_of_rollouts (C := toy true true) toy_cfg 0%nat 3)
    as (s & Hs & Hcount);
    [simpl; lia|intros H; vm_compute in H; discriminate H|].
  exists s. split; [exact Hs|].
  apply Nat2Z.inj. rewrite Hcount. reflexivity.
Defined.


Lemma clip_grad_is_ignored_witness :
  main (C := toy true true) (with_clip_grad toy_cfg 100) 0%nat
  = main (C := toy true true) toy_cfg 0%nat.
Proof.
  apply (clip_grad_is_ignored (C := toy true true) toy_cfg 0%nat 100).
  reflexivity.
Defined.

End LoopMoreExamples.
